(** * sql_go/sqlite.go: the record store over the [users] table

    The program drives an SQLite file through Go's [database/sql]:
    it creates one table, inserts and updates rows, reads one row and
    all rows, moves points between two rows inside a transaction, and
    runs one query under a deadline.

    The Go functions are embedded as functions on an explicit store
    state [DB].  The SQL statements they issue are given the meaning
    SQLite gives them on the table declared in [initDB]; every call
    into the engine may also fail for reasons outside the statement
    (a busy or closed database, an I/O error), which the state records
    as a schedule of upcoming faults. *)

From Stdlib Require Import ZArith List String Bool Lia Permutation.
From Stdlib Require Import DecimalString.
Import ListNotations.
Open Scope string_scope.
Open Scope Z_scope.

(** ** SQLite values of the [score] column *)

Module SQLite.

(** Go's [int] (64 bits on the platforms go-sqlite3 builds for) and
    SQLite's INTEGER storage class share this range. *)
Definition min_int64 : Z := - 2 ^ 63.
Definition max_int64 : Z := 2 ^ 63 - 1.

Definition in_int64 (z : Z) : bool := (min_int64 <=? z) && (z <=? max_int64).

(** Conversion of an integer to the nearest IEEE-754 double, ties to
    even.  Every REAL this program can produce comes from integer
    arithmetic that left the 64-bit range, so it is an integral
    double and is represented by its integer value. *)
Definition round53 (z : Z) : Z :=
  let m := Z.abs z in
  let e := Z.log2 m - 52 in
  if e <=? 0 then z
  else
    let q := Z.shiftr m e in
    let r := m - Z.shiftl q e in
    let half := Z.shiftl 1 (e - 1) in
    let q' := if (half <? r) || ((half =? r) && Z.odd q) then q + 1 else q in
    Z.sgn z * Z.shiftl q' e.

(** A cell of the [score INTEGER] column. *)
Inductive value : Type :=
| Integer (i : Z)    (* storage class INTEGER *)
| Real (r : Z).      (* storage class REAL, an integral double *)

(** The number a cell stands for; [ORDER BY] compares cells by it. *)
Definition num (v : value) : Z :=
  match v with Integer i => i | Real r => r end.

(** INTEGER column affinity: a REAL that is an integer strictly
    between the smallest and the largest 64-bit integer is stored as
    an INTEGER. *)
Definition integer_affinity (v : value) : value :=
  match v with
  | Integer i => Integer i
  | Real r => if (min_int64 <? r) && (r <? max_int64) then Integer r else Real r
  end.

(** [score + ?] and [score - ?] with an integer parameter: integer
    arithmetic, redone in floating point when the result overflows. *)
Definition add (v : value) (a : Z) : value :=
  match v with
  | Integer i =>
      if in_int64 (i + a) then Integer (i + a)
      else Real (round53 (round53 i + round53 a))
  | Real r => Real (round53 (r + round53 a))
  end.

Definition sub (v : value) (a : Z) : value :=
  match v with
  | Integer i =>
      if in_int64 (i - a) then Integer (i - a)
      else Real (round53 (round53 i - round53 a))
  | Real r => Real (round53 (r - round53 a))
  end.

End SQLite.
Import SQLite.

(** ** Errors *)

(** Failures of the engine that do not depend on the statement. *)
Inductive fault : Type :=
| Busy          (* SQLITE_BUSY, database is locked *)
| IOErr         (* SQLITE_IOERR *)
| DBClosed.     (* sql: database is closed *)

(** Go [error] values that reach the functions of the program. *)
Inductive error : Type :=
| ErrNoRows                      (* sql.ErrNoRows *)
| ErrTxDone                      (* sql.ErrTxDone *)
| ErrConstraint (msg : string)   (* sqlite3.ErrConstraint *)
| ErrFull                        (* SQLITE_FULL: no rowid left *)
| ErrFault (f : fault)
| ErrScan (column : nat)         (* sql: Scan error on column index .. *)
| Errorf (msg : string).         (* fmt.Errorf without %w *)

(** ** Data *)

(** A row of [users]; [name] and [email] hold the TEXT that
    [insertUser] binds, [score] the cell described above. *)
Record Row : Type := mkRow {
  r_id : Z;
  r_name : string;
  r_email : string;
  r_score : value
}.

(** [type User struct] *)
Record User : Type := mkUser {
  ID : Z;
  Name : string;
  Email : string;
  Score : Z
}.

(** [var user User] *)
Definition zero_User : User := mkUser 0 "" "" 0.

(** State of the connection's transaction, as in the protocol of
    Transfer: idle, open (with the table to restore on rollback),
    committed, rolled back. *)
Inductive tx_state : Type :=
| Idle
| TxOpen (snapshot : list Row)
| Committed
| RolledBack.

(** One line written by [log.Printf] in the functions embedded here. *)
Inductive log_entry : Type :=
| LogUpdateErr (err : error)
| LogUpdated (id newScore : Z)
| LogBeginErr (err : error)
| LogDebitErr (err : error)
| LogCreditErr (err : error)
| LogCommitErr (err : error)
| LogTransferred (amount fromID toID : Z).

(** The store behind [*sql.DB]. *)
Record DB : Type := mkDB {
  users : list Row;               (* rows of the table, in rowid order *)
  seq : Z;                        (* sqlite_sequence entry of AUTOINCREMENT *)
  txn : tx_state;
  faults : list (option fault);   (* outcome of the next engine calls *)
  logs : list log_entry
}.

Definition with_users (t : list Row) (db : DB) : DB :=
  mkDB t (seq db) (txn db) (faults db) (logs db).
Definition with_seq (s : Z) (db : DB) : DB :=
  mkDB (users db) s (txn db) (faults db) (logs db).
Definition with_txn (x : tx_state) (db : DB) : DB :=
  mkDB (users db) (seq db) x (faults db) (logs db).
Definition with_faults (fs : list (option fault)) (db : DB) : DB :=
  mkDB (users db) (seq db) (txn db) fs (logs db).
Definition log_Printf (l : log_entry) (db : DB) : DB :=
  mkDB (users db) (seq db) (txn db) (faults db) (logs db ++ [l]).

(** ** The engine *)

(** Every call into the engine takes the next entry of the schedule;
    an exhausted schedule means the engine works. *)
Definition engine_call (db : DB) : option fault * DB :=
  match faults db with
  | [] => (None, db)
  | f :: fs => (f, with_faults fs db)
  end.

Definition set_score (v : value) (r : Row) : Row :=
  mkRow (r_id r) (r_name r) (r_email r) v.

(** [WHERE id = ?] *)
Definition find_row (id : Z) (t : list Row) : option Row :=
  find (fun r => r_id r =? id) t.

(** [UPDATE users SET score = <f score> WHERE id = ?] *)
Definition update_where (id : Z) (f : value -> value) (t : list Row) : list Row :=
  map (fun r => if r_id r =? id then set_score (integer_affinity (f (r_score r))) r else r) t.

(** Largest rowid in the table, 0 when it is empty. *)
Definition max_rowid (t : list Row) : Z :=
  fold_right (fun r m => Z.max (r_id r) m) 0 t.

Definition email_taken (email : string) (t : list Row) : bool :=
  existsb (fun r => String.eqb (r_email r) email) t.

(** [INSERT INTO users (name, email, score) VALUES (?, ?, ?)] on the
    schema of [initDB]: the engine first draws the new rowid (one more
    than the largest ever used, AUTOINCREMENT), then checks NOT NULL
    on [name] and UNIQUE on [email]; a statement that fails changes
    nothing.  [name] is [None] for SQL NULL; a Go string, empty or
    not, is bound as TEXT. *)
Definition sql_insert (name : option string) (email : string) (score : Z)
    (db : DB) : (Z + error) * DB :=
  let last := Z.max (seq db) (max_rowid (users db)) in
  if max_int64 <=? last then (inr ErrFull, db)
  else
    match name with
    | None => (inr (ErrConstraint "NOT NULL constraint failed: users.name"), db)
    | Some n =>
        if email_taken email (users db)
        then (inr (ErrConstraint "UNIQUE constraint failed: users.email"), db)
        else
          let id := last + 1 in
          (inl id,
           with_seq id (with_users (users db ++ [mkRow id n email (Integer score)]) db))
    end.

(** [db.Exec] of the INSERT *)
Definition db_Exec_insert (name email : string) (score : Z) (db : DB)
    : (Z + error) * DB :=
  match engine_call db with
  | (Some f, db1) => (inr (ErrFault f), db1)
  | (None, db1) => sql_insert (Some name) email score db1
  end.

(** [db.Exec] of an UPDATE, outside a transaction *)
Definition db_Exec_update (id : Z) (f : value -> value) (db : DB)
    : option error * DB :=
  match engine_call db with
  | (Some e, db1) => (Some (ErrFault e), db1)
  | (None, db1) => (None, with_users (update_where id f (users db1)) db1)
  end.

(** [db.Begin] *)
Definition db_Begin (db : DB) : option error * DB :=
  match engine_call db with
  | (Some e, db1) => (Some (ErrFault e), db1)
  | (None, db1) => (None, with_txn (TxOpen (users db1)) db1)
  end.

(** [tx.Exec] of an UPDATE *)
Definition tx_Exec_update (id : Z) (f : value -> value) (db : DB)
    : option error * DB :=
  match txn db with
  | TxOpen _ =>
      match engine_call db with
      | (Some e, db1) => (Some (ErrFault e), db1)
      | (None, db1) => (None, with_users (update_where id f (users db1)) db1)
      end
  | _ => (Some ErrTxDone, db)
  end.

(** [tx.Commit]: the transaction is done whatever the engine answers;
    when COMMIT fails the driver rolls back. *)
Definition tx_Commit (db : DB) : option error * DB :=
  match txn db with
  | TxOpen snapshot =>
      match engine_call db with
      | (Some e, db1) => (Some (ErrFault e), with_txn RolledBack (with_users snapshot db1))
      | (None, db1) => (None, with_txn Committed db1)
      end
  | _ => (Some ErrTxDone, db)
  end.

(** [tx.Rollback]: restores the table; on a transaction already done
    it changes nothing. *)
Definition tx_Rollback (db : DB) : option error * DB :=
  match txn db with
  | TxOpen snapshot => (None, with_txn RolledBack (with_users snapshot db))
  | _ => (Some ErrTxDone, db)
  end.

(** ** The functions of sqlite.go *)

(** [insertUser]: the id of the new row, or 0 and the error of Exec. *)
Definition insertUser (db : DB) (name email : string) (score : Z)
    : (Z * option error) * DB :=
  match db_Exec_insert name email score db with
  | (inr err, db1) => ((0, Some err), db1)
  | (inl id, db1) => ((id, None), db1)      (* result.LastInsertId() *)
  end.

(** [updateScore] has no result: the error of Exec is logged and
    dropped. *)
Definition updateScore (db : DB) (id newScore : Z) : DB :=
  match db_Exec_update id (fun _ => Integer newScore) db with
  | (Some err, db1) => log_Printf (LogUpdateErr err) db1
  | (None, db1) => log_Printf (LogUpdated id newScore) db1
  end.

(** [%d] of an integer *)
Definition fmt_d (z : Z) : string := NilZero.string_of_int (Z.to_int z).

(** The text of the error [getUserByID] makes for a missing row. *)
Definition not_found_msg (id : Z) : string :=
  ("пользователь с ID " ++ fmt_d id ++ " не найден")%string.

(** [row.Scan(&user.ID, &user.Name, &user.Email, &user.Score)] on the
    row a query found, if any.  Columns are assigned in order; a REAL
    score does not convert to [int], and the fields before it keep
    what was assigned. *)
Definition row_Scan (found : option Row) (user : User) : User * option error :=
  match found with
  | None => (user, Some ErrNoRows)
  | Some r =>
      match r_score r with
      | Integer i => (mkUser (r_id r) (r_name r) (r_email r) i, None)
      | Real _ => (mkUser (r_id r) (r_name r) (r_email r) (Score user), Some (ErrScan 3))
      end
  end.

(** [db.QueryRow(...).Scan(...)]: an error of the query is returned
    by Scan. *)
Definition db_QueryRow_Scan (id : Z) (user : User) (db : DB)
    : (User * option error) * DB :=
  match engine_call db with
  | (Some f, db1) => ((user, Some (ErrFault f)), db1)
  | (None, db1) => (row_Scan (find_row id (users db1)) user, db1)
  end.

Definition error_eqb_ErrNoRows (e : option error) : bool :=
  match e with Some ErrNoRows => true | _ => false end.

(** [getUserByID] *)
Definition getUserByID (db : DB) (id : Z) : (User * option error) * DB :=
  match db_QueryRow_Scan id zero_User db with
  | ((user, err), db1) =>
      if error_eqb_ErrNoRows err
      then ((user, Some (Errorf (not_found_msg id))), db1)
      else ((user, err), db1)
  end.

(** [ORDER BY score DESC]: a row goes in front of the rows whose score
    is not larger, so rows of equal score stay in the order of the
    table scan. *)
Fixpoint insert_desc (r : Row) (l : list Row) : list Row :=
  match l with
  | [] => [r]
  | x :: xs =>
      if num (r_score x) <=? num (r_score r) then r :: x :: xs
      else x :: insert_desc r xs
  end.

Definition order_by_score_desc (t : list Row) : list Row :=
  fold_right insert_desc [] t.

(** [db.Query] of the SELECT of [getAllUsers] *)
Definition db_Query (db : DB) : (list Row + error) * DB :=
  match engine_call db with
  | (Some f, db1) => (inr (ErrFault f), db1)
  | (None, db1) => (inl (order_by_score_desc (users db1)), db1)
  end.

(** The loop [for rows.Next() { rows.Scan; append }] and the final
    [return users, rows.Err()].  Each [rows.Next()] is a call into the
    engine; when it fails the loop ends and [rows.Err()] reports it,
    next to the users read so far.  A failing Scan returns no users. *)
Fixpoint rows_loop (rows : list Row) (users : list User) (db : DB)
    : (list User * option error) * DB :=
  match engine_call db with
  | (Some f, db1) => ((users, Some (ErrFault f)), db1)
  | (None, db1) =>
      match rows with
      | [] => ((users, None), db1)
      | r :: rest =>
          match row_Scan (Some r) zero_User with
          | (_, Some err) => (([], Some err), db1)
          | (u, None) => rows_loop rest (users ++ [u]) db1
          end
      end
  end.

(** [getAllUsers] *)
Definition getAllUsers (db : DB) : (list User * option error) * DB :=
  match db_Query db with
  | (inr err, db1) => (([], Some err), db1)
  | (inl rows, db1) => rows_loop rows [] db1
  end.

(** The statements of [transferScore] between [defer tx.Rollback()]
    and the return. *)
Definition transfer_body (db : DB) (fromID toID amount : Z) : DB :=
  match tx_Exec_update fromID (fun score => sub score amount) db with
  | (Some err, db1) => log_Printf (LogDebitErr err) db1
  | (None, db1) =>
      match tx_Exec_update toID (fun score => add score amount) db1 with
      | (Some err, db2) => log_Printf (LogCreditErr err) db2
      | (None, db2) =>
          match tx_Commit db2 with
          | (Some err, db3) => log_Printf (LogCommitErr err) db3
          | (None, db3) => log_Printf (LogTransferred amount fromID toID) db3
          end
      end
  end.

(** [transferScore]: when Begin fails nothing was deferred; otherwise
    the deferred Rollback runs after the body, on every return. *)
Definition transferScore (db : DB) (fromID toID amount : Z) : DB :=
  match db_Begin db with
  | (Some err, db1) => log_Printf (LogBeginErr err) db1
  | (None, db1) => snd (tx_Rollback (transfer_body db1 fromID toID amount))
  end.

(** ** Observations on a store *)

(** The score cell of the entity [id], if it exists. *)
Definition score_of (db : DB) (id : Z) : option value :=
  option_map r_score (find_row id (users db)).

Definition exists_id (db : DB) (id : Z) : Prop :=
  find_row id (users db) <> None.

(** Sum of all scores. *)
Definition sum_scores (t : list Row) : Z :=
  fold_right (fun r s => num (r_score r) + s) 0 t.

Definition total_score (db : DB) : Z := sum_scores (users db).

(** PRIMARY KEY: no two rows share an id. *)
Definition unique_ids (db : DB) : Prop := NoDup (map r_id (users db)).

(** What the engine stores in an INTEGER column: an integer of 64
    bits, or a REAL that the affinity could not turn into one. *)
Definition valid_cell (v : value) : bool :=
  match v with
  | Integer i => in_int64 i
  | Real r => negb ((min_int64 <? r) && (r <? max_int64))
  end.

Definition valid_scores (db : DB) : Prop :=
  Forall (fun r => valid_cell (r_score r) = true) (users db).

(** The engine answers every call. *)
Definition available (db : DB) : Prop := faults db = [].

(** AUTOINCREMENT still has a rowid to give. *)
Definition rowid_left (db : DB) : Prop :=
  Z.max (seq db) (max_rowid (users db)) < max_int64.

(** The last line of the log is the success line of [transferScore]. *)
Definition transferred (db : DB) (amount fromID toID : Z) : Prop :=
  exists l, logs db = (l ++ [LogTransferred amount fromID toID])%list.

(** The store of the scenario in [main] after the two inserts and the
    update. *)
Definition alice : Row := mkRow 1 "Alice" "alice@example.com" (Integer 120).
Definition bob : Row := mkRow 2 "Bob" "bob@example.com" (Integer 150).
Definition main_db : DB := mkDB [alice; bob] 2 Idle [] [].

(** The ways out of [transferScore], with what each leaves behind. *)
Inductive transfer_exit (db db' : DB) (fromID toID amount : Z) : Prop :=
| ExitBeginFailed (err : error) :
    logs db' = (logs db ++ [LogBeginErr err])%list ->
    users db' = users db -> txn db' = txn db ->
    transfer_exit db db' fromID toID amount
| ExitDebitFailed (err : error) :
    logs db' = (logs db ++ [LogDebitErr err])%list ->
    users db' = users db -> txn db' = RolledBack ->
    transfer_exit db db' fromID toID amount
| ExitCreditFailed (err : error) :
    logs db' = (logs db ++ [LogCreditErr err])%list ->
    users db' = users db -> txn db' = RolledBack ->
    transfer_exit db db' fromID toID amount
| ExitCommitFailed (err : error) :
    logs db' = (logs db ++ [LogCommitErr err])%list ->
    users db' = users db -> txn db' = RolledBack ->
    transfer_exit db db' fromID toID amount
| ExitCommitted :
    logs db' = (logs db ++ [LogTransferred amount fromID toID])%list ->
    users db' =
      update_where toID (fun score => add score amount)
        (update_where fromID (fun score => sub score amount) (users db)) ->
    txn db' = Committed ->
    transfer_exit db db' fromID toID amount.

(** [StronglySorted] by descending score: every user has a score at
    least that of every user after it. *)
Inductive sorted_desc : list User -> Prop :=
| sorted_nil : sorted_desc []
| sorted_cons u us :
    Forall (fun u' => Score u >= Score u') us -> sorted_desc us ->
    sorted_desc (u :: us).

(** The [User] a successful Scan makes of a row. *)
Definition row_user (r : Row) : User :=
  mkUser (r_id r) (r_name r) (r_email r) (num (r_score r)).

(** A transaction that is over. *)
Definition released (x : tx_state) : Prop := x = Committed \/ x = RolledBack.

(** The scores of a transfer as the specification words them, for one
    call: on success the sender has lost [amount] and the receiver
    has gained it, and the sum of all scores has not moved. *)
Definition transfer_moves_amount (db : DB) (fromID toID amount : Z) : Prop :=
  forall vf vt,
    score_of db fromID = Some vf -> score_of db toID = Some vt ->
    let db' := transferScore db fromID toID amount in
    (transferred db' amount fromID toID ->
       option_map num (score_of db' fromID) = Some (num vf - amount) /\
       option_map num (score_of db' toID) = Some (num vt + amount)) /\
    total_score db' = total_score db.

(** A transfer naming a missing id as the specification words it: the
    call does not report success and no score has changed. *)
Definition transfer_rejects_missing_id (db : DB) (fromID toID amount : Z) : Prop :=
  let db' := transferScore db fromID toID amount in
  ~ transferred db' amount fromID toID /\
  forall id, score_of db' id = score_of db id.

(** A self-transfer as the specification words it: it succeeds and
    every score is what it was. *)
Definition self_transfer_neutral (db : DB) (x amount : Z) : Prop :=
  let db' := transferScore db x x amount in
  transferred db' amount x x /\
  forall id, option_map num (score_of db' id) = option_map num (score_of db id).

(** A store whose one entity holds the largest score, and one with a
    second entity next to it. *)
Definition rich : Row := mkRow 1 "Alice" "alice@example.com" (Integer max_int64).
Definition poor : Row := mkRow 2 "Bob" "bob@example.com" (Integer 0).
Definition rich_db : DB := mkDB [rich] 1 Idle [] [].
Definition rich_poor_db : DB := mkDB [rich; poor] 2 Idle [] [].

(** Creation with an empty name as the specification words it: it
    fails on a constraint and no row is added. *)
Definition create_rejects_empty_name (db : DB) (email : string) (score : Z) : Prop :=
  (exists msg, snd (fst (insertUser db "" email score)) = Some (ErrConstraint msg)) /\
  users (snd (insertUser db "" email score)) = users db.

(** The store right after [initDB] on a new file. *)
Definition empty_db : DB := mkDB [] 0 Idle [] [].

(** Users, and rows, of a given score. *)
Definition has_score (s : Z) (u : User) : bool := Score u =? s.
Definition row_has_score (s : Z) (r : Row) : bool := num (r_score r) =? s.

(** ** The database file and [initDB] *)




(** ** The calls of [main] on the store *)

(** The calls [main] makes between [initDB] and [queryWithTimeout],
    in its order and with the ids it passes on: the two ids returned
    by [insertUser] are used whatever the error was.  The lines [main]
    itself logs are not part of the store. *)
Definition main_calls (db : DB) : DB :=
  let '((idAlice, _), db1) := insertUser db "Alice" "alice@example.com" 100 in
  let '((idBob, _), db2) := insertUser db1 "Bob" "bob@example.com" 150 in
  let db3 := updateScore db2 idAlice 120 in
  let '(_, db4) := getUserByID db3 idAlice in
  let '(_, db5) := getAllUsers db4 in
  transferScore db5 idBob idAlice 20.

(** ** Well-formed stores *)

(** UNIQUE: no two rows share an email. *)
Definition unique_emails (db : DB) : Prop := NoDup (map r_email (users db)).

(** Rowids are positive and none is above the AUTOINCREMENT sequence. *)
Definition ids_in_sequence (db : DB) : Prop :=
  Forall (fun r => 1 <= r_id r <= seq db) (users db).

(** No transaction is left open. *)
Definition tx_closed (db : DB) : Prop := forall snapshot, txn db <> TxOpen snapshot.

Record store_ok (db : DB) : Prop := mkOk {
  ok_ids : unique_ids db;
  ok_emails : unique_emails db;
  ok_sequence : ids_in_sequence db;
  ok_cells : valid_scores db;
  ok_tx : tx_closed db
}.

(** The stores the functions of the program make out of the empty
    table, whatever the engine does in between.  Scores and amounts
    given to [insertUser] and [updateScore] are Go [int]s. *)
Inductive reachable : DB -> Prop :=
| reach_initDB fs :
    reachable (mkDB [] 0 Idle fs [])
| reach_engine db fs :
    reachable db -> reachable (with_faults fs db)
| reach_insertUser db name email score :
    reachable db -> in_int64 score = true ->
    reachable (snd (insertUser db name email score))
| reach_updateScore db id newScore :
    reachable db -> in_int64 newScore = true ->
    reachable (updateScore db id newScore)
| reach_getUserByID db id :
    reachable db -> reachable (snd (getUserByID db id))
| reach_getAllUsers db :
    reachable db -> reachable (snd (getAllUsers db))
| reach_transferScore db fromID toID amount :
    reachable db -> reachable (transferScore db fromID toID amount).

(** A cell that [Scan] can put into an [int]. *)
Definition is_integer (v : value) : bool :=
  match v with Integer _ => true | Real _ => false end.

Definition all_integer (t : list Row) : bool :=
  forallb (fun r => is_integer (r_score r)) t.


(** ** What tells one error from another *)

(** The Go type behind an error value.  [sql.ErrNoRows],
    [sql.ErrTxDone], the error of a closed database and every error of
    [fmt.Errorf] without [%w] are made by [errors.New]; the errors of
    the engine are [sqlite3.Error] values; an error of Scan is made by
    [fmt.Errorf] with [%w]. *)
Inductive go_type : Type :=
| errors_errorString
| sqlite3_Error
| fmt_wrapError.

Definition type_of (e : error) : go_type :=
  match e with
  | ErrNoRows => errors_errorString
  | ErrTxDone => errors_errorString
  | ErrConstraint _ => sqlite3_Error
  | ErrFull => sqlite3_Error
  | ErrFault Busy => sqlite3_Error
  | ErrFault IOErr => sqlite3_Error
  | ErrFault DBClosed => errors_errorString
  | ErrScan _ => fmt_wrapError
  | Errorf _ => errors_errorString
  end.

(** How the text of [err.Error()] begins (all of it, but for an error
    of Scan, whose text goes on with the column name and the value). *)
Definition error_text (e : error) : string :=
  match e with
  | ErrNoRows => "sql: no rows in result set"
  | ErrTxDone => "sql: transaction has already been committed or rolled back"
  | ErrConstraint msg => msg
  | ErrFull => "database or disk is full"
  | ErrFault Busy => "database is locked"
  | ErrFault IOErr => "disk I/O error"
  | ErrFault DBClosed => "sql: database is closed"
  | ErrScan column => ("sql: Scan error on column index " ++ fmt_d (Z.of_nat column))%string
  | Errorf msg => msg
  end.

Definition first_byte (s : string) : option Ascii.ascii :=
  match s with
  | EmptyString => None
  | String c _ => Some c
  end.

(** Reading an entity by id as the specification words it, for one
    store and one id: a matching row comes back as it is, with no
    error. *)
Definition found_returns_fields (db : DB) (id : Z) : Prop :=
  forall r, find_row id (users db) = Some r ->
    fst (getUserByID db id) = (row_user r, None).

(** Not-found as a kind of its own, as the specification words it: the
    error for a missing row is of another kind than every failure of
    the engine. *)
Definition not_found_own_kind (id : Z) : Prop :=
  forall f, type_of (Errorf (not_found_msg id)) <> type_of (ErrFault f).

(** The store with one entity of the largest score, after that entity
    has sent -1 to itself. *)
Definition overflowed_db : DB := transferScore rich_db 1 1 (-1).

(** ** The query with a deadline *)

(** [ctx.Err()] of a context that is done. *)
Inductive ctx_error : Type :=
| DeadlineExceeded     (* context.DeadlineExceeded *)
| Canceled.            (* context.Canceled *)

(** Errors that [queryWithTimeout] returns: an error of the query as
    it is, the error of the context, or one of these wrapped by
    [fmt.Errorf] with [%w]. *)
Inductive qerror : Type :=
| QErr (e : error)
| QCtx (c : ctx_error)
| QWrap (msg : string) (inner : qerror).



Definition timeout_msg : string := "превышен таймаут: ".

(** [db.QueryContext(ctx, "SELECT * FROM users WHERE 1=1 AND ? = 1",
    1)]: when the library finds the context done ([ctx_at_query] is
    its error) the query is given up with that error and the engine
    is not asked; otherwise the engine answers as for [db.Query], with
    all rows. *)
Definition db_QueryContext (ctx_at_query : option ctx_error) (db : DB)
    : (list Row + qerror) * DB :=
  match ctx_at_query with
  | Some c => (inr (QCtx c), db)
  | None =>
      match engine_call db with
      | (Some f, db1) => (inr (QErr (ErrFault f)), db1)
      | (None, db1) => (inl (users db1), db1)
      end
  end.

(** [queryWithTimeout].  The two replies of the context are inputs:
    what [QueryContext] found while it ran, and what [ctx.Err()]
    answers on line 197.  The result is the lines written by
    [log.Println] and the error returned; the rows of a query that
    went through are closed unread. *)
Definition queryWithTimeout (ctx_at_query ctx_at_check : option ctx_error)
    (db : DB) : (list string * option qerror) * DB :=
  let attempt := "  Попытка выполнить медленный запрос..." in
  match db_QueryContext ctx_at_query db with
  | (inr err, db1) =>
      match ctx_at_check with
      | Some DeadlineExceeded => (([attempt], Some (QWrap timeout_msg err)), db1)
      | _ => (([attempt], Some err), db1)
      end
  | (inl _, db1) =>
      (([attempt; "  Запрос выполнен успешно (контекст не истек)"], None), db1)
  end.

(** Tactics for the case analysis on the schedule of faults. *)
Ltac next_fault fs :=
  destruct fs as [|[?|] fs]; simpl.

Ltac exit_by c :=
  solve [ eapply c; simpl; reflexivity ].

(** Splits a conjunction into its parts, leaving each part as stated. *)
Ltac conjuncts :=
  repeat match goal with |- _ /\ _ => split end.

(** * Properties *)

(** ** The engine *)

Section Engine.

Variable db : DB.

Lemma engine_call_available :
  available db -> engine_call db = (None, db).
Proof.
  unfold available, engine_call. intros ->. reflexivity.
Qed.

Lemma engine_call_users : users (snd (engine_call db)) = users db.
Proof.
  unfold engine_call. destruct (faults db); reflexivity.
Qed.

Lemma engine_call_seq : seq (snd (engine_call db)) = seq db.
Proof.
  unfold engine_call. destruct (faults db); reflexivity.
Qed.

Lemma engine_call_logs : logs (snd (engine_call db)) = logs db.
Proof.
  unfold engine_call. destruct (faults db); reflexivity.
Qed.

Lemma engine_call_txn : txn (snd (engine_call db)) = txn db.
Proof.
  unfold engine_call. destruct (faults db); reflexivity.
Qed.

End Engine.

(** ** Rows and the UPDATE *)

Section Update.

Variable id : Z.
Variable f : value -> value.

Lemma update_where_ids t : map r_id (update_where id f t) = map r_id t.
Proof.
  induction t as [|r t IH]; simpl; [reflexivity|].
  rewrite IH. destruct (r_id r =? id); reflexivity.
Qed.

Lemma update_where_length t :
  List.length (update_where id f t) = List.length t.
Proof. apply length_map. Qed.

Lemma find_row_update_same t :
  find_row id (update_where id f t) =
  option_map (fun r => set_score (integer_affinity (f (r_score r))) r) (find_row id t).
Proof.
  induction t as [|r t IH]; simpl; [reflexivity|].
  destruct (r_id r =? id) eqn:E; simpl; rewrite E; [reflexivity|exact IH].
Qed.

Lemma find_row_update_other id' t :
  id' <> id -> find_row id' (update_where id f t) = find_row id' t.
Proof.
  intros Hne. induction t as [|r t IH]; simpl; [reflexivity|].
  destruct (r_id r =? id) eqn:E; simpl.
  - apply Z.eqb_eq in E.
    destruct (r_id r =? id') eqn:E'; [apply Z.eqb_eq in E'; congruence|exact IH].
  - destruct (r_id r =? id'); [reflexivity|exact IH].
Qed.

Lemma update_where_absent t :
  find_row id t = None -> update_where id f t = t.
Proof.
  induction t as [|r t IH]; simpl; [reflexivity|].
  destruct (r_id r =? id); [discriminate|].
  intros H. rewrite (IH H). reflexivity.
Qed.

Lemma find_row_not_in t :
  ~ In id (map r_id t) -> find_row id t = None.
Proof.
  induction t as [|r t IH]; simpl; [reflexivity|].
  intros H. destruct (r_id r =? id) eqn:E.
  - apply Z.eqb_eq in E. tauto.
  - apply IH. tauto.
Qed.

(** With a primary key, the UPDATE moves the sum by the change of
    the one row it finds. *)
Lemma sum_scores_update t r :
  NoDup (map r_id t) -> find_row id t = Some r ->
  sum_scores (update_where id f t) =
  sum_scores t - num (r_score r) + num (integer_affinity (f (r_score r))).
Proof.
  induction t as [|x t IH]; simpl; [discriminate|].
  intros Hnd Hfind. inversion Hnd as [|? ? Hnotin Hnd']; subst.
  destruct (r_id x =? id) eqn:E.
  - injection Hfind as ->. apply Z.eqb_eq in E. rewrite E in Hnotin.
    fold (update_where id f t).
    rewrite (update_where_absent t (find_row_not_in t Hnotin)).
    simpl. fold (sum_scores t). lia.
  - fold (update_where id f t). fold (sum_scores (update_where id f t)).
    fold (sum_scores t). rewrite (IH Hnd' Hfind). lia.
Qed.

End Update.

Lemma find_row_id id t r : find_row id t = Some r -> r_id r = id.
Proof.
  unfold find_row. intros H. apply find_some in H. apply Z.eqb_eq, H.
Qed.

Lemma find_row_In id t r : find_row id t = Some r -> In r t.
Proof.
  unfold find_row. intros H. apply find_some in H. apply H.
Qed.

(** ** The exits of [transferScore] *)

Lemma transferScore_exit db fromID toID amount :
  transfer_exit db (transferScore db fromID toID amount) fromID toID amount.
Proof.
  destruct db as [u s x fs l].
  unfold transferScore, transfer_body, db_Begin, tx_Exec_update, tx_Commit,
    tx_Rollback, engine_call; simpl.
  next_fault fs; [exit_by ExitCommitted | exit_by ExitBeginFailed | ].
  next_fault fs; [exit_by ExitCommitted | exit_by ExitDebitFailed | ].
  next_fault fs; [exit_by ExitCommitted | exit_by ExitCreditFailed | ].
  next_fault fs; [exit_by ExitCommitted | exit_by ExitCommitFailed | exit_by ExitCommitted].
Qed.

Lemma transferScore_available db fromID toID amount :
  available db ->
  transferScore db fromID toID amount =
  log_Printf (LogTransferred amount fromID toID)
    (with_txn Committed
       (with_users
          (update_where toID (fun score => add score amount)
             (update_where fromID (fun score => sub score amount) (users db)))
          db)).
Proof.
  destruct db as [u s x fs l]. unfold available. simpl. intros ->. reflexivity.
Qed.

(** The last line of the log tells the exits apart. *)
Lemma last_log_inj (l l' : list log_entry) (a b : log_entry) :
  (l ++ [a])%list = (l' ++ [b])%list -> a = b.
Proof.
  intros H. apply app_inj_tail in H. apply H.
Qed.

Lemma not_transferred_after l entry amount fromID toID db' :
  logs db' = (l ++ [entry])%list ->
  entry <> LogTransferred amount fromID toID ->
  ~ transferred db' amount fromID toID.
Proof.
  intros Hl Hne [l' Hl']. rewrite Hl in Hl'.
  apply last_log_inj in Hl'. contradiction.
Qed.

(** C3. On every way out of [transferScore] the transaction it opened
    is over: committed after the success line, rolled back after a
    failed debit, credit or commit.  When Begin itself fails no
    transaction was opened and the connection is as it was. *)
Theorem transfer_releases_transaction db fromID toID amount :
  let db' := transferScore db fromID toID amount in
  (exists err, logs db' = (logs db ++ [LogBeginErr err])%list /\ txn db' = txn db)
  \/ (released (txn db') /\
      ((logs db' = (logs db ++ [LogTransferred amount fromID toID])%list
        /\ txn db' = Committed)
       \/ (exists err,
             (logs db' = (logs db ++ [LogDebitErr err])%list
              \/ logs db' = (logs db ++ [LogCreditErr err])%list
              \/ logs db' = (logs db ++ [LogCommitErr err])%list)
             /\ txn db' = RolledBack))).
Proof.
  intros db'. subst db'.
  destruct (transferScore_exit db fromID toID amount)
    as [err Hl Hu Ht | err Hl Hu Ht | err Hl Hu Ht | err Hl Hu Ht | Hl Hu Ht].
  - left. exists err. split; assumption.
  - right. split; [right; assumption|]. right. exists err. tauto.
  - right. split; [right; assumption|]. right. exists err. tauto.
  - right. split; [right; assumption|]. right. exists err. tauto.
  - right. split; [left; assumption|]. left. tauto.
Qed.

(** ** Scores after a transfer *)

Lemma score_of_find db id v :
  score_of db id = Some v ->
  exists r, find_row id (users db) = Some r /\ r_score r = v.
Proof.
  unfold score_of. destruct (find_row id (users db)) as [r|]; simpl; [|discriminate].
  intros [= <-]. exists r. split; reflexivity.
Qed.

Lemma not_exists_id db id : ~ exists_id db id -> find_row id (users db) = None.
Proof.
  unfold exists_id. destruct (find_row id (users db)); [|reflexivity].
  intros H. exfalso. apply H. discriminate.
Qed.

Lemma sub_in_range i a :
  in_int64 (i - a) = true -> integer_affinity (sub (Integer i) a) = Integer (i - a).
Proof. simpl. intros ->. reflexivity. Qed.

Lemma add_in_range i a :
  in_int64 (i + a) = true -> integer_affinity (add (Integer i) a) = Integer (i + a).
Proof. simpl. intros ->. reflexivity. Qed.

(** C1, counterexample. The transfer of 20 from entity 1 to itself
    succeeds and leaves its score at 120, not at 120 - 20; and the
    transfer of 3 from entity 2 to entity 1, whose score is the
    largest 64-bit integer, succeeds and leaves the sum of the scores
    two lower than it was. *)
Lemma transfer_moves_amount_fails :
  ~ transfer_moves_amount main_db 1 1 20 /\
  ~ transfer_moves_amount rich_poor_db 2 1 3.
Proof.
  split; intros H.
  - destruct (H (Integer 120) (Integer 120) eq_refl eq_refl) as [Hmove _].
    destruct Hmove as [Hfrom _]; [exists []; reflexivity|].
    vm_compute in Hfrom. discriminate.
  - destruct (H (Integer 0) (Integer max_int64) eq_refl eq_refl) as [_ Hsum].
    vm_compute in Hsum. discriminate.
Qed.

(** C1, amended. For two distinct entities whose scores are integers,
    and an amount that keeps both results within 64 bits, a transfer
    that succeeds takes [amount] from the sender and gives it to the
    receiver; one that fails leaves every row as it was; and either
    way the sum of all scores is what it was. *)
Theorem transfer_distinct_in_range db fromID toID amount sf st :
  unique_ids db ->
  score_of db fromID = Some (Integer sf) ->
  score_of db toID = Some (Integer st) ->
  fromID <> toID ->
  in_int64 (sf - amount) = true ->
  in_int64 (st + amount) = true ->
  let db' := transferScore db fromID toID amount in
  (transferred db' amount fromID toID ->
     score_of db' fromID = Some (Integer (sf - amount)) /\
     score_of db' toID = Some (Integer (st + amount))) /\
  (~ transferred db' amount fromID toID -> users db' = users db) /\
  total_score db' = total_score db.
Proof.
  intros Hnd Hf Ht Hne Hrf Hrt db'. subst db'.
  destruct (score_of_find _ _ _ Hf) as (rf & Hff & Hsf).
  destruct (score_of_find _ _ _ Ht) as (rt & Hft & Hst).
  destruct (transferScore_exit db fromID toID amount)
    as [err Hl Hu _ | err Hl Hu _ | err Hl Hu _ | err Hl Hu _ | Hl Hu _];
    try (split; [|split];
         [ intros Hok; exfalso; revert Hok;
           apply (not_transferred_after _ _ _ _ _ _ Hl); discriminate
         | intros _; exact Hu
         | unfold total_score; rewrite Hu; reflexivity ]).
  split; [|split].
  - intros _. unfold score_of. rewrite Hu. split.
    + rewrite find_row_update_other by exact Hne.
      rewrite find_row_update_same, Hff. simpl.
      rewrite Hsf. simpl. rewrite Hrf. reflexivity.
    + rewrite find_row_update_same.
      rewrite find_row_update_other by (intros E; apply Hne; symmetry; exact E).
      rewrite Hft. simpl. rewrite Hst. simpl. rewrite Hrt. reflexivity.
  - intros Hfail. exfalso. apply Hfail. exists (logs db). exact Hl.
  - unfold total_score. rewrite Hu.
    rewrite (sum_scores_update toID _ _ rt).
    + rewrite (sum_scores_update fromID _ _ rf Hnd Hff).
      rewrite Hsf, Hst, sub_in_range, add_in_range by assumption.
      simpl. lia.
    + rewrite update_where_ids. exact Hnd.
    + rewrite find_row_update_other by (intros E; apply Hne; symmetry; exact E).
      exact Hft.
Qed.

Lemma transfer_distinct_in_range_witness :
  let db' := transferScore main_db 2 1 20 in
  (transferred db' 20 2 1 ->
     score_of db' 2 = Some (Integer (150 - 20)) /\
     score_of db' 1 = Some (Integer (120 + 20))) /\
  (~ transferred db' 20 2 1 -> users db' = users main_db) /\
  total_score db' = total_score main_db.
Proof.
  apply (transfer_distinct_in_range main_db 2 1 20 150 120).
  - unfold unique_ids. simpl. repeat constructor; simpl; intuition discriminate.
  - reflexivity.
  - reflexivity.
  - discriminate.
  - reflexivity.
  - reflexivity.
Defined.

(** C2, counterexample. Bob (id 2, score 150) sends 20 to the id 7,
    which no entity has: the call reports success and Bob's score is
    130 afterwards. *)
Lemma transfer_rejects_missing_id_fails :
  transferred (transferScore main_db 2 7 20) 20 2 7 /\
  score_of main_db 2 = Some (Integer 150) /\
  score_of (transferScore main_db 2 7 20) 2 = Some (Integer 130) /\
  ~ transfer_rejects_missing_id main_db 2 7 20.
Proof.
  assert (Hok : transferred (transferScore main_db 2 7 20) 20 2 7)
    by (exists []; reflexivity).
  repeat split; try reflexivity; try exact Hok.
  intros [Hfail _]. exact (Hfail Hok).
Qed.

(** C2, amended. A transfer that names a missing id gives its caller
    no error value ([transferScore] has no result); every entity other
    than the two named ones keeps its score, and when neither id
    exists no row changes. *)
Theorem transfer_missing_id_others_unchanged db fromID toID amount :
  ~ exists_id db fromID \/ ~ exists_id db toID ->
  let db' := transferScore db fromID toID amount in
  (forall id, id <> fromID -> id <> toID -> score_of db' id = score_of db id) /\
  (~ exists_id db fromID -> ~ exists_id db toID -> users db' = users db).
Proof.
  intros _ db'. subst db'.
  destruct (transferScore_exit db fromID toID amount)
    as [err _ Hu _ | err _ Hu _ | err _ Hu _ | err _ Hu _ | _ Hu _];
    try (split; [intros id _ _; unfold score_of; rewrite Hu; reflexivity
                | intros _ _; exact Hu]).
  split.
  - intros id Hf Ht. unfold score_of. rewrite Hu.
    rewrite !find_row_update_other by assumption. reflexivity.
  - intros Hf Ht. rewrite Hu.
    rewrite (update_where_absent fromID _ _ (not_exists_id _ _ Hf)).
    apply update_where_absent, not_exists_id, Ht.
Qed.

Lemma transfer_missing_id_others_unchanged_witness :
  let db' := transferScore main_db 7 8 20 in
  (forall id, id <> 7 -> id <> 8 -> score_of db' id = score_of main_db id) /\
  (~ exists_id main_db 7 -> ~ exists_id main_db 8 -> users db' = users main_db).
Proof.
  apply (transfer_missing_id_others_unchanged main_db 7 8 20).
  left. unfold exists_id. simpl. intros H. apply H. reflexivity.
Defined.

(** C9, counterexample. The one entity holds the largest 64-bit
    integer; sending -1 to itself first adds 1, which leaves the
    integers, and the score ends as the REAL 2^63. *)
Lemma self_transfer_neutral_fails :
  score_of rich_db 1 = Some (Integer max_int64) /\
  score_of (transferScore rich_db 1 1 (-1)) 1 = Some (Real (2 ^ 63)) /\
  ~ self_transfer_neutral rich_db 1 (-1).
Proof.
  repeat split; try reflexivity.
  intros [_ Hsame]. specialize (Hsame 1). vm_compute in Hsame. discriminate.
Qed.

(** C9, amended. On an available store, for an entity whose score is
    an integer [s] and an amount with [s - amount] within 64 bits, the
    transfer from the entity to itself succeeds and every entity has
    the score it had. *)
Theorem self_transfer_in_range db x amount s :
  available db ->
  valid_scores db ->
  score_of db x = Some (Integer s) ->
  in_int64 (s - amount) = true ->
  let db' := transferScore db x x amount in
  transferred db' amount x x /\
  forall id, score_of db' id = score_of db id.
Proof.
  intros Hav Hvalid Hx Hr db'. subst db'.
  rewrite (transferScore_available _ _ _ _ Hav).
  split; [exists (logs db); reflexivity|].
  intros id. unfold score_of. simpl.
  destruct (Z.eq_dec id x) as [->|Hne].
  - destruct (score_of_find _ _ _ Hx) as (r & Hfind & Hs).
    rewrite !find_row_update_same, Hfind. simpl.
    rewrite Hs, sub_in_range by exact Hr.
    assert (Hin : in_int64 s = true).
    { unfold valid_scores in Hvalid. rewrite Forall_forall in Hvalid.
      specialize (Hvalid r (find_row_In _ _ _ Hfind)).
      rewrite Hs in Hvalid. exact Hvalid. }
    rewrite add_in_range; rewrite Z.sub_add; [reflexivity|exact Hin].
  - rewrite !find_row_update_other by exact Hne. reflexivity.
Qed.

Lemma self_transfer_in_range_witness :
  let db' := transferScore main_db 1 1 20 in
  transferred db' 20 1 1 /\
  forall id, score_of db' id = score_of main_db id.
Proof.
  apply (self_transfer_in_range main_db 1 20 120).
  - reflexivity.
  - unfold valid_scores. simpl. repeat constructor.
  - reflexivity.
  - reflexivity.
Defined.

(** ** Reading one row *)

(** C4, counterexample. The entity 1 of [overflowed_db] exists, and
    [getUserByID] returns for it the Scan error and a user of score 0,
    not its fields.  And the error for a missing row has the Go type
    of the error of a closed database, which [getUserByID] returns as
    it is: no kind of its own. *)
Lemma get_by_id_claim_fails :
  (find_row 1 (users overflowed_db) =
     Some (mkRow 1 "Alice" "alice@example.com" (Real (2 ^ 63))) /\
   fst (getUserByID overflowed_db 1) =
     (mkUser 1 "Alice" "alice@example.com" 0, Some (ErrScan 3)) /\
   ~ found_returns_fields overflowed_db 1) /\
  (snd (fst (getUserByID main_db 7)) = Some (Errorf (not_found_msg 7)) /\
   snd (fst (getUserByID (with_faults [Some DBClosed] main_db) 7)) =
     Some (ErrFault DBClosed) /\
   ~ not_found_own_kind 7).
Proof.
  split; conjuncts; try reflexivity.
  - intros H.
    specialize (H (mkRow 1 "Alice" "alice@example.com" (Real (2 ^ 63))) eq_refl).
    vm_compute in H. discriminate.
  - intros H. apply (H DBClosed). reflexivity.
Qed.

(** C4, amended. On an available store [getUserByID] returns, for an
    id no row has, the zero user and the text error made from the
    not-found message; for an id a row has, the fields of that row and
    no error when its score is an integer, and the Scan error when its
    score is a REAL.  Whatever the store, the not-found error is
    returned exactly when the engine answered and no row matches, and
    every other error it returns has a text that begins with another
    byte than a not-found message: the text, not the type, tells the
    missing row from the other failures. *)
Theorem getUserByID_found_or_not_found db id :
  (available db -> find_row id (users db) = None ->
     getUserByID db id = ((zero_User, Some (Errorf (not_found_msg id))), db)) /\
  (forall r i,
     available db -> find_row id (users db) = Some r -> r_score r = Integer i ->
     getUserByID db id = ((mkUser id (r_name r) (r_email r) i, None), db)) /\
  (forall r x,
     available db -> find_row id (users db) = Some r -> r_score r = Real x ->
     getUserByID db id = ((mkUser id (r_name r) (r_email r) 0, Some (ErrScan 3)), db)) /\
  (forall user err db',
     getUserByID db id = ((user, Some err), db') ->
     (err = Errorf (not_found_msg id) <->
      fst (engine_call db) = None /\ find_row id (users db) = None) /\
     (err <> Errorf (not_found_msg id) ->
      forall id', first_byte (error_text err) <> first_byte (not_found_msg id'))).
Proof.
  unfold getUserByID, db_QueryRow_Scan. conjuncts.
  - intros Hav Hnone. rewrite (engine_call_available _ Hav), Hnone. reflexivity.
  - intros r i Hav Hfind Hscore. rewrite (engine_call_available _ Hav), Hfind.
    simpl. rewrite Hscore. simpl. rewrite (find_row_id _ _ _ Hfind). reflexivity.
  - intros r x Hav Hfind Hscore. rewrite (engine_call_available _ Hav), Hfind.
    simpl. rewrite Hscore. simpl. rewrite (find_row_id _ _ _ Hfind). reflexivity.
  - intros user err db' H. pose proof (engine_call_users db) as Hu. revert H Hu.
    destruct (engine_call db) as [[f|] db1]; simpl; intros H Hu.
    + injection H as _ <- _. split.
      * split; [discriminate|intros [Hcall _]; discriminate].
      * intros _ id'. destruct f; simpl; discriminate.
    + rewrite <- Hu. revert H. unfold row_Scan.
      destruct (find_row id (users db1)) as [r|].
      * destruct (r_score r); simpl; intros H; [discriminate|].
        injection H as _ <- _. split.
        -- split; [discriminate|intros [_ Hnone]; discriminate].
        -- intros _ id'. simpl. discriminate.
      * simpl. intros H. injection H as _ <- _. split.
        -- split; [tauto|reflexivity].
        -- intros Hne. exfalso. apply Hne. reflexivity.
Qed.

Lemma getUserByID_found_or_not_found_witness :
  getUserByID main_db 7 = ((zero_User, Some (Errorf (not_found_msg 7))), main_db) /\
  getUserByID main_db 1 =
    ((mkUser 1 "Alice" "alice@example.com" 120, None), main_db) /\
  getUserByID overflowed_db 1 =
    ((mkUser 1 "Alice" "alice@example.com" 0, Some (ErrScan 3)), overflowed_db).
Proof.
  destruct (getUserByID_found_or_not_found main_db 7) as [Hmissing _].
  destruct (getUserByID_found_or_not_found main_db 1) as [_ [Hfound _]].
  destruct (getUserByID_found_or_not_found overflowed_db 1) as [_ [_ [Hreal _]]].
  conjuncts.
  - apply Hmissing; reflexivity.
  - apply (Hfound alice 120); reflexivity.
  - apply (Hreal (mkRow 1 "Alice" "alice@example.com" (Real (2 ^ 63))) (2 ^ 63));
      reflexivity.
Defined.

(** ** Reading all rows *)

Section OrderBy.

Lemma insert_desc_perm r l : Permutation (insert_desc r l) (r :: l).
Proof.
  induction l as [|x xs IH]; simpl; [reflexivity|].
  destruct (num (r_score x) <=? num (r_score r)); [reflexivity|].
  rewrite IH. apply perm_swap.
Qed.

Lemma order_by_score_desc_perm t : Permutation (order_by_score_desc t) t.
Proof.
  induction t as [|r t IH]; simpl; [constructor|].
  rewrite insert_desc_perm. constructor. exact IH.
Qed.

Lemma insert_desc_sorted r l :
  sorted_desc (map row_user l) -> sorted_desc (map row_user (insert_desc r l)).
Proof.
  induction l as [|x xs IH]; simpl; intros Hs.
  - constructor; [constructor|exact Hs].
  - inversion Hs as [|? ? Hall Hs']; subst.
    destruct (num (r_score x) <=? num (r_score r)) eqn:E; simpl.
    + apply Z.leb_le in E. constructor; [|exact Hs].
      constructor; [simpl; lia|].
      eapply Forall_impl; [|exact Hall]. simpl. intros u Hu. lia.
    + constructor; [|apply IH; exact Hs'].
      apply (Permutation_Forall
               (Permutation_sym (Permutation_map row_user (insert_desc_perm r xs)))).
      apply Z.leb_gt in E. constructor; [simpl; lia|exact Hall].
Qed.

Lemma order_by_score_desc_sorted t :
  sorted_desc (map row_user (order_by_score_desc t)).
Proof.
  induction t as [|r t IH]; simpl; [constructor|].
  apply insert_desc_sorted, IH.
Qed.

(** Rows of one score pass the sorter in the order they came. *)
Lemma filter_insert_desc s r l :
  filter (row_has_score s) (insert_desc r l) = filter (row_has_score s) (r :: l).
Proof.
  induction l as [|x xs IH]; [reflexivity|].
  cbn [insert_desc].
  destruct (num (r_score x) <=? num (r_score r)) eqn:E; [reflexivity|].
  cbn [filter] in *. rewrite IH.
  destruct (row_has_score s x) eqn:Ex; [|reflexivity].
  destruct (row_has_score s r) eqn:Er; [|reflexivity].
  unfold row_has_score in Ex, Er.
  apply Z.eqb_eq in Ex, Er. apply Z.leb_gt in E. lia.
Qed.

Lemma filter_order_by_score_desc s t :
  filter (row_has_score s) (order_by_score_desc t) = filter (row_has_score s) t.
Proof.
  induction t as [|r t IH]; [reflexivity|].
  cbn [order_by_score_desc fold_right]. fold (order_by_score_desc t).
  rewrite filter_insert_desc. cbn [filter]. rewrite IH. reflexivity.
Qed.

Lemma filter_row_user s l :
  filter (has_score s) (map row_user l) = map row_user (filter (row_has_score s) l).
Proof.
  induction l as [|r l IH]; [reflexivity|].
  cbn [map filter]. rewrite IH.
  replace (has_score s (row_user r)) with (row_has_score s r) by reflexivity.
  destruct (row_has_score s r); reflexivity.
Qed.

(** A loop that ends without error has scanned every row. *)
Lemma rows_loop_ok rows : forall acc db us db',
  rows_loop rows acc db = ((us, None), db') ->
  us = (acc ++ map row_user rows)%list.
Proof.
  induction rows as [|r rows IH]; intros acc db us db'; cbn [rows_loop];
    destruct (engine_call db) as [[f|] db1]; try discriminate.
  - intros [= <- _]. cbn [map]. rewrite app_nil_r. reflexivity.
  - unfold row_Scan. destruct (r_score r) as [i|x] eqn:E; [|discriminate].
    intros H. apply IH in H. rewrite H, <- app_assoc.
    cbn [map app]. unfold row_user at 2. rewrite E. reflexivity.
Qed.

End OrderBy.

(** C5. The users of a [getAllUsers] that returned no error are in
    descending order of score: each has a score at least that of
    every user after it.  They are the rows of the table, and the
    users of any one score come in the order of their rows. *)
Theorem getAllUsers_sorted db us db' :
  getAllUsers db = ((us, None), db') ->
  sorted_desc us /\
  Permutation us (map row_user (users db)) /\
  forall s,
    filter (has_score s) us = map row_user (filter (row_has_score s) (users db)).
Proof.
  unfold getAllUsers, db_Query. pose proof (engine_call_users db) as Hu. revert Hu.
  destruct (engine_call db) as [[f|] db1]; simpl; [discriminate|].
  intros Hu H. apply rows_loop_ok in H. simpl in H. subst us. rewrite Hu.
  split; [apply order_by_score_desc_sorted|]. split.
  - apply Permutation_map, order_by_score_desc_perm.
  - intros s. rewrite filter_row_user, filter_order_by_score_desc. reflexivity.
Qed.

Lemma getAllUsers_sorted_witness :
  sorted_desc [row_user bob; row_user alice] /\
  Permutation [row_user bob; row_user alice] (map row_user (users main_db)) /\
  forall s,
    filter (has_score s) [row_user bob; row_user alice] =
    map row_user (filter (row_has_score s) (users main_db)).
Proof.
  apply (getAllUsers_sorted main_db [row_user bob; row_user alice] main_db).
  reflexivity.
Defined.

(** ** Creating a row *)

Lemma email_taken_In email t :
  (exists r, In r t /\ r_email r = email) -> email_taken email t = true.
Proof.
  intros (r & Hin & He). unfold email_taken. apply existsb_exists.
  exists r. split; [exact Hin|]. apply String.eqb_eq, He.
Qed.

Lemma insertUser_available db name email score :
  available db -> rowid_left db -> email_taken email (users db) = false ->
  let id := Z.max (seq db) (max_rowid (users db)) + 1 in
  insertUser db name email score =
  ((id, None),
   with_seq id (with_users (users db ++ [mkRow id name email (Integer score)]) db)).
Proof.
  intros Hav Hleft Hfree id. subst id.
  unfold insertUser, db_Exec_insert, sql_insert.
  rewrite (engine_call_available _ Hav), Hfree.
  unfold rowid_left in Hleft. apply Z.leb_gt in Hleft. rewrite Hleft. reflexivity.
Qed.

(** C6. Creating a user whose email a row already has fails: the id
    returned is 0, an error is returned, and the rows and the id
    sequence are what they were.  When the engine answers and has a
    rowid left to give, the error is the violation of the UNIQUE
    constraint on email and the store is unchanged altogether. *)
Theorem insertUser_duplicate_email db name email score :
  (exists r, In r (users db) /\ r_email r = email) ->
  fst (fst (insertUser db name email score)) = 0 /\
  snd (fst (insertUser db name email score)) <> None /\
  users (snd (insertUser db name email score)) = users db /\
  seq (snd (insertUser db name email score)) = seq db /\
  (available db -> rowid_left db ->
   insertUser db name email score =
   ((0, Some (ErrConstraint "UNIQUE constraint failed: users.email")), db)).
Proof.
  intros Hdup. apply email_taken_In in Hdup.
  unfold insertUser, db_Exec_insert, sql_insert.
  pose proof (engine_call_users db) as Hu. pose proof (engine_call_seq db) as Hs.
  assert (Hav : available db -> engine_call db = (None, db))
    by apply engine_call_available.
  revert Hu Hs Hav. destruct (engine_call db) as [[f|] db1]; simpl; intros Hu Hs Hav.
  - repeat split; try assumption; try discriminate.
    intros H. specialize (Hav H). discriminate.
  - rewrite Hu, Hs, Hdup.
    destruct (max_int64 <=? Z.max (seq db) (max_rowid (users db))) eqn:E; simpl;
      (repeat split; try assumption; try discriminate).
    + intros _ Hleft. unfold rowid_left in Hleft. apply Z.leb_le in E. lia.
    + intros H _. specialize (Hav H). injection Hav as ->. reflexivity.
Qed.

Lemma insertUser_duplicate_email_witness :
  insertUser main_db "Eve" "alice@example.com" 5 =
  ((0, Some (ErrConstraint "UNIQUE constraint failed: users.email")), main_db).
Proof.
  apply (insertUser_duplicate_email main_db "Eve" "alice@example.com" 5).
  - exists alice. split; [left; reflexivity|reflexivity].
  - reflexivity.
  - reflexivity.
Defined.

(** C7, counterexample. On the empty table the user with the empty
    name is created: id 1 is returned with no error and the row is in
    the table. *)
Lemma create_rejects_empty_name_fails :
  insertUser empty_db "" "alice@example.com" 100 =
    ((1, None), mkDB [mkRow 1 "" "alice@example.com" (Integer 100)] 1 Idle [] []) /\
  ~ create_rejects_empty_name empty_db "alice@example.com" 100.
Proof.
  split; [reflexivity|].
  intros [[msg H] _]. vm_compute in H. discriminate.
Qed.

(** C7, amended. An empty name is accepted: on an available store with
    a rowid left, creating a user with the empty name and an email no
    row has returns the next id and no error, and adds the row with
    the empty name.  NOT NULL rejects only the NULL name, which the
    string parameter of [insertUser] cannot be. *)
Theorem insertUser_empty_name db email score :
  available db -> rowid_left db -> email_taken email (users db) = false ->
  let id := Z.max (seq db) (max_rowid (users db)) + 1 in
  insertUser db "" email score =
    ((id, None),
     with_seq id (with_users (users db ++ [mkRow id "" email (Integer score)]) db)) /\
  sql_insert None email score db =
    (inr (ErrConstraint "NOT NULL constraint failed: users.name"), db).
Proof.
  intros Hav Hleft Hfree id. split.
  - apply insertUser_available; assumption.
  - unfold sql_insert. unfold rowid_left in Hleft. apply Z.leb_gt in Hleft.
    rewrite Hleft. reflexivity.
Qed.

Lemma insertUser_empty_name_witness :
  insertUser main_db "" "carol@example.com" 7 =
    ((3, None),
     with_seq 3
       (with_users (users main_db ++ [mkRow 3 "" "carol@example.com" (Integer 7)])
          main_db)) /\
  sql_insert None "carol@example.com" 7 main_db =
    (inr (ErrConstraint "NOT NULL constraint failed: users.name"), main_db).
Proof.
  apply (insertUser_empty_name main_db "carol@example.com" 7).
  - reflexivity.
  - unfold rowid_left. vm_compute. reflexivity.
  - reflexivity.
Defined.

(** ** Overwriting a score *)

(** C10. [updateScore] has no result, so no error reaches its caller.
    For an id no row has it leaves the rows, the id sequence and the
    transaction state as they were; on an available store all it does
    is write the line that reports the update as done. *)
Theorem updateScore_missing_id db id newScore :
  ~ exists_id db id ->
  users (updateScore db id newScore) = users db /\
  seq (updateScore db id newScore) = seq db /\
  txn (updateScore db id newScore) = txn db /\
  (available db ->
   updateScore db id newScore = log_Printf (LogUpdated id newScore) db).
Proof.
  intros Hmissing. apply not_exists_id in Hmissing.
  unfold updateScore, db_Exec_update.
  pose proof (engine_call_users db) as Hu. pose proof (engine_call_seq db) as Hs.
  pose proof (engine_call_txn db) as Ht.
  assert (Hav : available db -> engine_call db = (None, db))
    by apply engine_call_available.
  revert Hu Hs Ht Hav.
  destruct (engine_call db) as [[f|] db1]; simpl; intros Hu Hs Ht Hav.
  - repeat split; try assumption. intros H. specialize (Hav H). discriminate.
  - rewrite Hu, (update_where_absent _ _ _ Hmissing).
    repeat split; try assumption.
    intros H. specialize (Hav H). injection Hav as ->.
    destruct db; reflexivity.
Qed.

Lemma updateScore_missing_id_witness :
  users (updateScore main_db 7 500) = users main_db /\
  seq (updateScore main_db 7 500) = seq main_db /\
  txn (updateScore main_db 7 500) = txn main_db /\
  (available main_db ->
   updateScore main_db 7 500 = log_Printf (LogUpdated 7 500) main_db).
Proof.
  apply (updateScore_missing_id main_db 7 500).
  unfold exists_id. simpl. intros H. apply H. reflexivity.
Defined.

(** ** The primary key and the cells are invariants of the program *)

Section Invariants.

Lemma max_rowid_ge t x : In x (map r_id t) -> x <= max_rowid t.
Proof.
  induction t as [|r t IH]; simpl; [tauto|].
  intros [<-|H]; [lia|]. specialize (IH H). lia.
Qed.

Lemma valid_affinity v :
  (forall i, v = Integer i -> in_int64 i = true) ->
  valid_cell (integer_affinity v) = true.
Proof.
  destruct v as [i|r]; simpl; intros H; [apply (H i eq_refl)|].
  destruct ((min_int64 <? r) && (r <? max_int64)) eqn:E; simpl.
  - apply andb_true_iff in E. destruct E as [E1 E2].
    apply Z.ltb_lt in E1, E2. unfold in_int64.
    apply andb_true_iff. split; apply Z.leb_le; lia.
  - rewrite E. reflexivity.
Qed.

Lemma valid_add v a : valid_cell (integer_affinity (add v a)) = true.
Proof.
  apply valid_affinity. destruct v as [i|r]; simpl; [|discriminate].
  destruct (in_int64 (i + a)) eqn:E; [|discriminate].
  intros j [= <-]. exact E.
Qed.

Lemma valid_sub v a : valid_cell (integer_affinity (sub v a)) = true.
Proof.
  apply valid_affinity. destruct v as [i|r]; simpl; [|discriminate].
  destruct (in_int64 (i - a)) eqn:E; [|discriminate].
  intros j [= <-]. exact E.
Qed.

Lemma update_where_valid id f t :
  (forall v, valid_cell (integer_affinity (f v)) = true) ->
  Forall (fun r => valid_cell (r_score r) = true) t ->
  Forall (fun r => valid_cell (r_score r) = true) (update_where id f t).
Proof.
  intros Hf Ht. unfold update_where. apply Forall_map.
  eapply Forall_impl; [|exact Ht]. simpl. intros r Hr.
  destruct (r_id r =? id); [apply Hf|exact Hr].
Qed.

Variable db : DB.
Hypothesis Hids : unique_ids db.
Hypothesis Hcells : valid_scores db.

Lemma insertUser_invariants name email score :
  in_int64 score = true ->
  unique_ids (snd (insertUser db name email score)) /\
  valid_scores (snd (insertUser db name email score)).
Proof.
  intros Hscore. unfold unique_ids, valid_scores in *.
  unfold insertUser, db_Exec_insert, sql_insert.
  pose proof (engine_call_users db) as Hu. revert Hu.
  destruct (engine_call db) as [[f|] db1]; simpl; intros Hu.
  - rewrite Hu. split; assumption.
  - destruct (max_int64 <=? Z.max (seq db1) (max_rowid (users db1)));
      [simpl; rewrite Hu; split; assumption|].
    destruct (email_taken email (users db1));
      simpl; rewrite Hu; [split; assumption|].
    split.
    + rewrite map_app. simpl.
      apply (Permutation_NoDup (Permutation_cons_append _ _)).
      constructor; [|exact Hids].
      intros Hin. apply max_rowid_ge in Hin. lia.
    + apply Forall_app. split; [exact Hcells|].
      constructor; [exact Hscore|constructor].
Qed.

Lemma updateScore_invariants id newScore :
  in_int64 newScore = true ->
  unique_ids (updateScore db id newScore) /\
  valid_scores (updateScore db id newScore).
Proof.
  intros Hscore. unfold unique_ids, valid_scores in *.
  unfold updateScore, db_Exec_update.
  pose proof (engine_call_users db) as Hu. revert Hu.
  destruct (engine_call db) as [[f|] db1]; simpl; intros Hu; rewrite Hu.
  - split; assumption.
  - split; [rewrite update_where_ids; exact Hids|].
    apply update_where_valid; [|exact Hcells]. intros v. exact Hscore.
Qed.

Lemma transferScore_invariants fromID toID amount :
  unique_ids (transferScore db fromID toID amount) /\
  valid_scores (transferScore db fromID toID amount).
Proof.
  unfold unique_ids, valid_scores in *.
  destruct (transferScore_exit db fromID toID amount)
    as [err _ Hu _ | err _ Hu _ | err _ Hu _ | err _ Hu _ | _ Hu _];
    rewrite Hu; try (split; assumption).
  split.
  - rewrite !update_where_ids. exact Hids.
  - apply update_where_valid; [intros v; apply valid_add|].
    apply update_where_valid; [intros v; apply valid_sub|exact Hcells].
Qed.

End Invariants.

(** ** The scenario of [main] *)

Example scenario_inserts_and_update :
  let '(_, db1) := insertUser empty_db "Alice" "alice@example.com" 100 in
  let '(_, db2) := insertUser db1 "Bob" "bob@example.com" 150 in
  users (updateScore db2 1 120) = users main_db.
Proof. reflexivity. Qed.

Example scenario_transfer :
  let db' := transferScore main_db 2 1 20 in
  fst (getUserByID db' 1) = (mkUser 1 "Alice" "alice@example.com" 140, None) /\
  fst (getUserByID db' 2) = (mkUser 2 "Bob" "bob@example.com" 130, None).
Proof. split; reflexivity. Qed.

(** Each way out of [transferScore] is taken by some schedule. *)
Example exits_reached :
  logs (transferScore (with_faults [Some DBClosed] main_db) 2 1 20)
    = [LogBeginErr (ErrFault DBClosed)] /\
  logs (transferScore (with_faults [None; Some Busy] main_db) 2 1 20)
    = [LogDebitErr (ErrFault Busy)] /\
  logs (transferScore (with_faults [None; None; Some Busy] main_db) 2 1 20)
    = [LogCreditErr (ErrFault Busy)] /\
  logs (transferScore (with_faults [None; None; None; Some IOErr] main_db) 2 1 20)
    = [LogCommitErr (ErrFault IOErr)] /\
  logs (transferScore main_db 2 1 20) = [LogTransferred 20 2 1].
Proof. repeat split. Qed.


(** * Further properties of the functions *)

(** ** [insertUser] *)

Lemma max_rowid_nonneg t : 0 <= max_rowid t.
Proof.
  induction t as [|r t IH]; simpl; lia.
Qed.

Lemma find_row_app_new id t r :
  Forall (fun x => r_id x < id) t -> r_id r = id ->
  find_row id (t ++ [r]) = Some r.
Proof.
  intros Hlt Hid. induction Hlt as [|x t Hx _ IH]; simpl.
  - rewrite Hid, Z.eqb_refl. reflexivity.
  - destruct (r_id x =? id) eqn:E; [apply Z.eqb_eq in E; lia|exact IH].
Qed.

Lemma rows_below_next t s : Forall (fun x => r_id x < Z.max s (max_rowid t) + 1) t.
Proof.
  apply Forall_forall. intros x Hin.
  pose proof (max_rowid_ge t (r_id x) (in_map r_id _ _ Hin)). lia.
Qed.

(** X1. Whatever the engine does, [insertUser] ends in one of two
    ways.  Either it returns an error with the id 0 and the rows and
    the id sequence are what they were; or it returns no error and an
    id that is at least 1, above the sequence and above the id of
    every row, and the table is the old one with the new row, holding
    the values given, at its end. *)
Theorem insertUser_outcome db name email score :
  let r := insertUser db name email score in
  (snd (fst r) <> None /\ fst (fst r) = 0 /\
   users (snd r) = users db /\ seq (snd r) = seq db)
  \/
  (snd (fst r) = None /\ 1 <= fst (fst r) <= max_int64 /\
   seq db < fst (fst r) /\ seq (snd r) = fst (fst r) /\
   Forall (fun x => r_id x < fst (fst r)) (users db) /\
   users (snd r) =
     (users db ++ [mkRow (fst (fst r)) name email (Integer score)])%list).
Proof.
  unfold insertUser, db_Exec_insert, sql_insert.
  pose proof (engine_call_users db) as Hu. pose proof (engine_call_seq db) as Hs.
  revert Hu Hs. destruct (engine_call db) as [[f|] db1]; simpl; intros Hu Hs.
  - left. repeat split; try assumption. discriminate.
  - rewrite Hu, Hs.
    destruct (max_int64 <=? Z.max (seq db) (max_rowid (users db))) eqn:E; simpl.
    + left. repeat split; try assumption. discriminate.
    + destruct (email_taken email (users db)); simpl.
      * left. repeat split; try assumption. discriminate.
      * right. apply Z.leb_gt in E.
        pose proof (max_rowid_nonneg (users db)).
        repeat split; try lia; try (rewrite Hu; reflexivity).
        apply rows_below_next.
Qed.

(** X2. Insert, then look up: on an available store with a rowid left,
    creating a user with an email no row has gives no error, and
    [getUserByID] on the id returned gives back exactly the name,
    the email and the score that were given. *)
Theorem insertUser_then_getUserByID db name email score :
  available db -> rowid_left db -> email_taken email (users db) = false ->
  let r := insertUser db name email score in
  snd (fst r) = None /\
  fst (getUserByID (snd r) (fst (fst r))) =
    (mkUser (fst (fst r)) name email score, None).
Proof.
  intros Hav Hleft Hfree r. subst r.
  rewrite (insertUser_available _ _ _ _ Hav Hleft Hfree). simpl.
  split; [reflexivity|].
  unfold getUserByID, db_QueryRow_Scan, engine_call. simpl.
  unfold available in Hav. rewrite Hav. simpl.
  rewrite (find_row_app_new (Z.max (seq db) (max_rowid (users db)) + 1) (users db)
             (mkRow (Z.max (seq db) (max_rowid (users db)) + 1) name email
                (Integer score))
             (rows_below_next _ _) eq_refl).
  reflexivity.
Qed.

Lemma insertUser_then_getUserByID_witness :
  let r := insertUser main_db "Carol" "carol@example.com" 7 in
  snd (fst r) = None /\
  fst (getUserByID (snd r) (fst (fst r))) =
    (mkUser (fst (fst r)) "Carol" "carol@example.com" 7, None).
Proof.
  apply (insertUser_then_getUserByID main_db "Carol" "carol@example.com" 7).
  - reflexivity.
  - unfold rowid_left. vm_compute. reflexivity.
  - reflexivity.
Defined.

(** ** [updateScore] *)

Section UpdateFrame.

Variable id : Z.
Variable f : value -> value.

Lemma update_where_names t : map r_name (update_where id f t) = map r_name t.
Proof.
  induction t as [|r t IH]; simpl; [reflexivity|].
  rewrite IH. destruct (r_id r =? id); reflexivity.
Qed.

Lemma update_where_emails t : map r_email (update_where id f t) = map r_email t.
Proof.
  induction t as [|r t IH]; simpl; [reflexivity|].
  rewrite IH. destruct (r_id r =? id); reflexivity.
Qed.

(** Two UPDATEs of the same row by constants: the second one counts. *)
Lemma update_where_overwrite v g t :
  update_where id (fun _ => v) (update_where id g t) = update_where id (fun _ => v) t.
Proof.
  induction t as [|r t IH]; simpl; [reflexivity|].
  fold (update_where id g t). fold (update_where id (fun _ => v) t).
  fold (update_where id (fun _ => v) (update_where id g t)).
  rewrite IH. destruct (r_id r =? id) eqn:E; simpl; rewrite E; reflexivity.
Qed.

End UpdateFrame.

Lemma updateScore_available db id newScore :
  available db ->
  updateScore db id newScore =
  log_Printf (LogUpdated id newScore)
    (with_users (update_where id (fun _ => Integer newScore) (users db)) db).
Proof.
  intros Hav. unfold updateScore, db_Exec_update.
  rewrite (engine_call_available _ Hav). reflexivity.
Qed.

(** X3. Update, then look up: on an available store, after
    [updateScore] on the id of a row, [getUserByID] returns that row's
    name and email with the new score and no error, whatever the cell
    held before. *)
Theorem updateScore_then_getUserByID db id newScore r :
  available db -> find_row id (users db) = Some r ->
  fst (getUserByID (updateScore db id newScore) id) =
    (mkUser id (r_name r) (r_email r) newScore, None).
Proof.
  intros Hav Hfind. rewrite (updateScore_available _ _ _ Hav).
  unfold getUserByID, db_QueryRow_Scan, engine_call. simpl.
  unfold available in Hav. rewrite Hav. simpl.
  rewrite find_row_update_same, Hfind. simpl.
  rewrite (find_row_id _ _ _ Hfind). reflexivity.
Qed.

Lemma updateScore_then_getUserByID_witness :
  fst (getUserByID (updateScore main_db 2 999) 2) =
    (mkUser 2 "Bob" "bob@example.com" 999, None).
Proof.
  apply (updateScore_then_getUserByID main_db 2 999 bob); reflexivity.
Defined.

(** X4. What [updateScore] leaves alone, whatever the engine does: the
    ids, names and emails of all rows in their order, every row of
    another id, the id sequence and the transaction state.  When the
    engine fails the call, no row changes and the one trace is the
    error line in the log. *)
Theorem updateScore_frame db id newScore :
  let db' := updateScore db id newScore in
  map r_id (users db') = map r_id (users db) /\
  map r_name (users db') = map r_name (users db) /\
  map r_email (users db') = map r_email (users db) /\
  (forall id', id' <> id -> find_row id' (users db') = find_row id' (users db)) /\
  seq db' = seq db /\ txn db' = txn db /\
  (forall e, fst (engine_call db) = Some e ->
     users db' = users db /\
     logs db' = (logs db ++ [LogUpdateErr (ErrFault e)])%list).
Proof.
  unfold updateScore, db_Exec_update.
  pose proof (engine_call_users db) as Hu. pose proof (engine_call_seq db) as Hs.
  pose proof (engine_call_txn db) as Ht. pose proof (engine_call_logs db) as Hl.
  revert Hu Hs Ht Hl.
  destruct (engine_call db) as [[e|] db1]; simpl; intros Hu Hs Ht Hl.
  - rewrite Hu, Hl. conjuncts; try assumption; try reflexivity.
    intros e' [= <-]. split; reflexivity.
  - rewrite Hu, update_where_ids, update_where_names, update_where_emails.
    conjuncts; try assumption; try reflexivity; try discriminate.
    intros id' Hne. apply find_row_update_other, Hne.
Qed.

(** X5. The last write wins: on an available store, two calls of
    [updateScore] on the same id leave the table that the second call
    alone would leave. *)
Theorem updateScore_last_write_wins db id v1 v2 :
  available db ->
  users (updateScore (updateScore db id v1) id v2) = users (updateScore db id v2).
Proof.
  intros Hav. rewrite (updateScore_available db id v1 Hav).
  rewrite (updateScore_available db id v2 Hav).
  rewrite updateScore_available by exact Hav.
  simpl. apply update_where_overwrite.
Qed.

Lemma updateScore_last_write_wins_witness :
  users (updateScore (updateScore main_db 1 5) 1 9) = users (updateScore main_db 1 9).
Proof.
  apply (updateScore_last_write_wins main_db 1 5 9). reflexivity.
Defined.

(** ** The readers *)

(** What a reader must leave alone. *)
Lemma rows_loop_store rows : forall acc db,
  let db' := snd (rows_loop rows acc db) in
  users db' = users db /\ seq db' = seq db /\ txn db' = txn db /\ logs db' = logs db.
Proof.
  induction rows as [|r rows IH]; intros acc db; cbn [rows_loop];
    pose proof (engine_call_users db) as Hu; pose proof (engine_call_seq db) as Hs;
    pose proof (engine_call_txn db) as Ht; pose proof (engine_call_logs db) as Hl;
    revert Hu Hs Ht Hl;
    destruct (engine_call db) as [[f|] db1]; simpl; intros Hu Hs Ht Hl;
    try (conjuncts; assumption).
  unfold row_Scan. destruct (r_score r); simpl; [|conjuncts; assumption].
  destruct (IH (acc ++ [mkUser (r_id r) (r_name r) (r_email r) i])%list db1)
    as (Hu' & Hs' & Ht' & Hl').
  conjuncts; congruence.
Qed.

(** X6. The two readers only read: after [getUserByID] and after
    [getAllUsers], whatever they return and whatever the engine does,
    the rows, the id sequence, the transaction state and the log are
    what they were. *)
Theorem readers_change_nothing db id :
  let one := snd (getUserByID db id) in
  let all := snd (getAllUsers db) in
  (users one = users db /\ seq one = seq db /\ txn one = txn db /\ logs one = logs db) /\
  (users all = users db /\ seq all = seq db /\ txn all = txn db /\ logs all = logs db).
Proof.
  pose proof (engine_call_users db) as Hu. pose proof (engine_call_seq db) as Hs.
  pose proof (engine_call_txn db) as Ht. pose proof (engine_call_logs db) as Hl.
  split.
  - unfold getUserByID, db_QueryRow_Scan. revert Hu Hs Ht Hl.
    destruct (engine_call db) as [[f|] db1]; simpl; intros Hu Hs Ht Hl;
      [conjuncts; assumption|].
    destruct (row_Scan (find_row id (users db1)) zero_User) as [user err].
    destruct (error_eqb_ErrNoRows err); simpl; conjuncts; assumption.
  - unfold getAllUsers, db_Query. revert Hu Hs Ht Hl.
    destruct (engine_call db) as [[f|] db1]; simpl; intros Hu Hs Ht Hl;
      [conjuncts; assumption|].
    destruct (rows_loop_store (order_by_score_desc (users db1)) [] db1)
      as (Hu' & Hs' & Ht' & Hl').
    conjuncts; congruence.
Qed.



(** The second and third way are taken: a failure of the second
    [rows.Next] returns Bob with the error; a REAL score in the table
    returns nobody. *)
Example getAllUsers_cut_and_scan_failure :
  fst (getAllUsers (with_faults [None; None; Some IOErr] main_db)) =
    ([row_user bob], Some (ErrFault IOErr)) /\
  fst (getAllUsers (transferScore rich_poor_db 2 1 3)) = ([], Some (ErrScan 3)).
Proof. split; reflexivity. Qed.

Lemma all_integer_perm t t' :
  Permutation t t' -> all_integer t = true -> all_integer t' = true.
Proof.
  unfold all_integer. intros Hp H. apply forallb_forall. intros r Hin.
  rewrite forallb_forall in H. apply H.
  apply (Permutation_in _ (Permutation_sym Hp) Hin).
Qed.

Lemma rows_loop_available db rows : forall acc,
  available db -> all_integer rows = true ->
  rows_loop rows acc db = ((acc ++ map row_user rows)%list, None, db).
Proof.
  induction rows as [|r rows IH]; intros acc Hav Hint; cbn [rows_loop];
    rewrite (engine_call_available _ Hav).
  - simpl. rewrite app_nil_r. reflexivity.
  - simpl in Hint. apply andb_true_iff in Hint. destruct Hint as [Hr Hrows].
    unfold row_Scan. destruct (r_score r) as [i|x] eqn:E; [|discriminate].
    rewrite (IH _ Hav Hrows), <- app_assoc. simpl.
    unfold row_user at 2. rewrite E. reflexivity.
Qed.

Lemma rows_loop_real db rows : forall acc,
  available db -> all_integer rows = false ->
  rows_loop rows acc db = (([], Some (ErrScan 3)), db).
Proof.
  induction rows as [|r rows IH]; intros acc Hav Hint; [discriminate|].
  cbn [rows_loop]. rewrite (engine_call_available _ Hav).
  simpl in Hint. unfold row_Scan.
  destruct (r_score r) as [i|x]; simpl in *; [|reflexivity].
  apply IH; assumption.
Qed.

(** X8. On an available store [getAllUsers] succeeds exactly when
    every score is an integer: then it returns all rows as users, in
    the order of the query, and no error; with one score that is not,
    it returns no user and the Scan error.  The store is unchanged
    either way. *)
Theorem getAllUsers_available db :
  available db ->
  getAllUsers db =
    if all_integer (users db)
    then ((map row_user (order_by_score_desc (users db)), None), db)
    else (([], Some (ErrScan 3)), db).
Proof.
  intros Hav. unfold getAllUsers, db_Query.
  rewrite (engine_call_available _ Hav).
  destruct (all_integer (users db)) eqn:E.
  - apply (rows_loop_available db _ [] Hav).
    apply (all_integer_perm _ _ (Permutation_sym (order_by_score_desc_perm (users db))) E).
  - apply (rows_loop_real db _ [] Hav).
    destruct (all_integer (order_by_score_desc (users db))) eqn:E'; [|reflexivity].
    rewrite (all_integer_perm _ _ (order_by_score_desc_perm (users db)) E') in E.
    discriminate.
Qed.

Lemma getAllUsers_available_witness :
  getAllUsers main_db =
    if all_integer (users main_db)
    then ((map row_user (order_by_score_desc (users main_db)), None), main_db)
    else (([], Some (ErrScan 3)), main_db).
Proof.
  apply (getAllUsers_available main_db). reflexivity.
Defined.

(** X9. A row whose score is a REAL cannot be read: on an available
    store [getUserByID] on its id returns the Scan error, with the id,
    name and email of the row already assigned and the score left 0. *)
Theorem getUserByID_real_score db id r x :
  available db -> find_row id (users db) = Some r -> r_score r = Real x ->
  getUserByID db id =
    ((mkUser id (r_name r) (r_email r) 0, Some (ErrScan 3)), db).
Proof.
  intros Hav Hfind Hreal. unfold getUserByID, db_QueryRow_Scan.
  rewrite (engine_call_available _ Hav), Hfind. simpl. rewrite Hreal. simpl.
  rewrite (find_row_id _ _ _ Hfind). reflexivity.
Qed.

Lemma getUserByID_real_score_witness :
  getUserByID (transferScore rich_db 1 1 (-1)) 1 =
    ((mkUser 1 "Alice" "alice@example.com" 0, Some (ErrScan 3)),
     transferScore rich_db 1 1 (-1)).
Proof.
  apply (getUserByID_real_score (transferScore rich_db 1 1 (-1)) 1
           (mkRow 1 "Alice" "alice@example.com" (Real (2 ^ 63))) (2 ^ 63));
    reflexivity.
Defined.

(** ** [transferScore] *)

(** X10. All or nothing, for any two ids, any amount and whatever the
    engine does: a [transferScore] that does not end with its success
    line leaves every row as it was.  In every case the ids, names
    and emails of the rows, their order, the rows of ids other than
    the two named and the id sequence are what they were. *)
Theorem transferScore_all_or_nothing db fromID toID amount :
  let db' := transferScore db fromID toID amount in
  (~ transferred db' amount fromID toID -> users db' = users db) /\
  map r_id (users db') = map r_id (users db) /\
  map r_name (users db') = map r_name (users db) /\
  map r_email (users db') = map r_email (users db) /\
  (forall id, id <> fromID -> id <> toID ->
     find_row id (users db') = find_row id (users db)).
Proof.
  intros db'. subst db'.
  destruct (transferScore_exit db fromID toID amount)
    as [err _ Hu _ | err _ Hu _ | err _ Hu _ | err _ Hu _ | Hl Hu _];
    try (rewrite Hu; conjuncts; try reflexivity; intros; reflexivity).
  conjuncts.
  - intros Hfail. exfalso. apply Hfail. exists (logs db). exact Hl.
  - rewrite Hu, !update_where_ids. reflexivity.
  - rewrite Hu, !update_where_names. reflexivity.
  - rewrite Hu, !update_where_emails. reflexivity.
  - intros id Hf Ht. rewrite Hu, !find_row_update_other by assumption. reflexivity.
Qed.

Lemma transferScore_keeps_available db fromID toID amount :
  available db -> available (transferScore db fromID toID amount).
Proof.
  intros Hav. rewrite (transferScore_available _ _ _ _ Hav). exact Hav.
Qed.

Lemma valid_score_in_range db id r i :
  valid_scores db -> find_row id (users db) = Some r -> r_score r = Integer i ->
  in_int64 i = true.
Proof.
  intros Hvalid Hfind Hs. unfold valid_scores in Hvalid.
  rewrite Forall_forall in Hvalid.
  specialize (Hvalid r (find_row_In _ _ _ Hfind)). rewrite Hs in Hvalid. exact Hvalid.
Qed.

(** X11. There and back: on an available store, for two distinct
    entities with integer scores and an amount that keeps both results
    within 64 bits, sending the amount and then sending it back, both
    succeed and every entity has the score it started with. *)
Theorem transfer_there_and_back db fromID toID amount sf st :
  available db -> valid_scores db ->
  score_of db fromID = Some (Integer sf) ->
  score_of db toID = Some (Integer st) ->
  fromID <> toID ->
  in_int64 (sf - amount) = true ->
  in_int64 (st + amount) = true ->
  let there := transferScore db fromID toID amount in
  let back := transferScore there toID fromID amount in
  transferred there amount fromID toID /\
  transferred back amount toID fromID /\
  forall id, score_of back id = score_of db id.
Proof.
  intros Hav Hvalid Hf Ht Hne Hrf Hrt there back. subst there back.
  assert (Hne' : toID <> fromID) by (intros E; apply Hne; symmetry; exact E).
  destruct (score_of_find _ _ _ Hf) as (rf & Hff & Hsf).
  destruct (score_of_find _ _ _ Ht) as (rt & Hft & Hst).
  pose proof (valid_score_in_range _ _ _ _ Hvalid Hff Hsf) as Hinf.
  pose proof (valid_score_in_range _ _ _ _ Hvalid Hft Hst) as Hint.
  rewrite (transferScore_available _ toID fromID amount
             (transferScore_keeps_available _ fromID toID amount Hav)).
  rewrite (transferScore_available _ fromID toID amount Hav).
  conjuncts.
  - exists (logs db). reflexivity.
  - exists (logs db ++ [LogTransferred amount fromID toID])%list. reflexivity.
  - intros id. unfold score_of. simpl.
    destruct (Z.eq_dec id fromID) as [->|Hidf]; [|destruct (Z.eq_dec id toID) as [->|Hidt]].
    + rewrite find_row_update_same.
      rewrite (find_row_update_other toID _ fromID) by exact Hne.
      rewrite (find_row_update_other toID _ fromID) by exact Hne.
      rewrite find_row_update_same, Hff. simpl.
      rewrite Hsf, sub_in_range by exact Hrf.
      rewrite add_in_range; rewrite Z.sub_add; [reflexivity|exact Hinf].
    + rewrite (find_row_update_other fromID _ toID) by exact Hne'.
      rewrite find_row_update_same.
      rewrite find_row_update_same.
      rewrite (find_row_update_other fromID _ toID) by exact Hne'.
      rewrite Hft. simpl.
      rewrite Hst, add_in_range by exact Hrt.
      rewrite sub_in_range; rewrite Z.add_simpl_r; [reflexivity|exact Hint].
    + rewrite !find_row_update_other by assumption. reflexivity.
Qed.

Lemma transfer_there_and_back_witness :
  let there := transferScore main_db 2 1 20 in
  let back := transferScore there 1 2 20 in
  transferred there 20 2 1 /\
  transferred back 20 1 2 /\
  forall id, score_of back id = score_of main_db id.
Proof.
  apply (transfer_there_and_back main_db 2 1 20 150 120).
  - reflexivity.
  - unfold valid_scores. simpl. repeat constructor.
  - reflexivity.
  - reflexivity.
  - discriminate.
  - reflexivity.
  - reflexivity.
Defined.

(** *** The sign of the amount *)

Lemma round53_opp z : round53 (- z) = - round53 z.
Proof.
  unfold round53. rewrite Z.abs_opp, Z.sgn_opp.
  destruct (Z.log2 (Z.abs z) - 52 <=? 0); [reflexivity|].
  apply Z.mul_opp_l.
Qed.

Lemma add_opp v a : add v (- a) = sub v a.
Proof.
  destruct v as [i|r]; simpl; rewrite round53_opp, ?Z.add_opp_r; reflexivity.
Qed.

Lemma sub_opp v a : sub v (- a) = add v a.
Proof.
  destruct v as [i|r]; simpl; rewrite round53_opp, ?Z.sub_opp_r; reflexivity.
Qed.

Lemma update_where_ext id f g t :
  (forall v, f v = g v) -> update_where id f t = update_where id g t.
Proof.
  intros H. unfold update_where. apply map_ext. intros r. rewrite H. reflexivity.
Qed.

(** UPDATEs of two different rows can be done in either order. *)
Lemma update_where_comm id1 id2 f g t :
  id1 <> id2 ->
  update_where id1 f (update_where id2 g t) = update_where id2 g (update_where id1 f t).
Proof.
  intros Hne. unfold update_where. rewrite !map_map. apply map_ext. intros r.
  destruct (r_id r =? id1) eqn:E1; destruct (r_id r =? id2) eqn:E2; simpl;
    rewrite ?E1, ?E2; try reflexivity.
  apply Z.eqb_eq in E1, E2. congruence.
Qed.

(** X12. The amount has no sign check: a negative amount moves the
    points the other way.  For two distinct ids and an amount whose
    opposite is a Go [int] too, whatever the engine does,
    [transferScore] from one to the other with the opposite amount
    leaves the table that [transferScore] in the other direction with
    the amount itself leaves. *)
Theorem transfer_negative_amount_reverses db fromID toID amount :
  fromID <> toID ->
  in_int64 amount = true -> in_int64 (- amount) = true ->
  users (transferScore db fromID toID (- amount)) =
  users (transferScore db toID fromID amount).
Proof.
  intros Hne _ _.
  assert (Hswap :
    update_where toID (fun score => add score (- amount))
      (update_where fromID (fun score => sub score (- amount)) (users db)) =
    update_where fromID (fun score => add score amount)
      (update_where toID (fun score => sub score amount) (users db))).
  { rewrite (update_where_ext toID _ (fun score => sub score amount))
      by (intros v; apply add_opp).
    rewrite (update_where_ext fromID _ (fun score => add score amount))
      by (intros v; apply sub_opp).
    apply update_where_comm. intros E. apply Hne. symmetry. exact E. }
  revert Hswap. destruct db as [u s x fs l].
  unfold transferScore, transfer_body, db_Begin, tx_Exec_update, tx_Commit,
    tx_Rollback, engine_call; simpl. intros Hswap.
  next_fault fs; try reflexivity; try exact Hswap.
  next_fault fs; try reflexivity; try exact Hswap.
  next_fault fs; try reflexivity; try exact Hswap.
  next_fault fs; try reflexivity; try exact Hswap.
Qed.

Lemma transfer_negative_amount_reverses_witness :
  users (transferScore main_db 1 2 (- 20)) = users (transferScore main_db 2 1 20).
Proof.
  apply (transfer_negative_amount_reverses main_db 1 2 20).
  - discriminate.
  - reflexivity.
  - reflexivity.
Defined.

(** *** A party that does not exist *)

(** X13. The UPDATE of a missing row changes nothing and is no error,
    so a transfer with one party missing goes through for the other.
    On an available store with a primary key: with the receiver
    missing and the sender's score an integer that stays within 64
    bits, the call ends with its success line, the sender has lost
    the amount and the sum of all scores is lower by it; with the
    sender missing, the receiver has gained the amount and the sum is
    higher by it. *)
Theorem transfer_with_missing_party db fromID toID amount s :
  available db -> unique_ids db ->
  let db' := transferScore db fromID toID amount in
  (score_of db fromID = Some (Integer s) -> ~ exists_id db toID ->
   in_int64 (s - amount) = true ->
   transferred db' amount fromID toID /\
   score_of db' fromID = Some (Integer (s - amount)) /\
   total_score db' = total_score db - amount) /\
  (score_of db toID = Some (Integer s) -> ~ exists_id db fromID ->
   in_int64 (s + amount) = true ->
   transferred db' amount fromID toID /\
   score_of db' toID = Some (Integer (s + amount)) /\
   total_score db' = total_score db + amount).
Proof.
  intros Hav Hnd db'. subst db'.
  rewrite (transferScore_available _ _ _ _ Hav).
  split; intros Hs Hmissing Hr; apply not_exists_id in Hmissing;
    destruct (score_of_find _ _ _ Hs) as (r & Hfind & Hscore);
    (split; [exists (logs db); reflexivity|]);
    unfold score_of, total_score; simpl.
  - rewrite (update_where_absent toID); [|rewrite find_row_update_other;
      [exact Hmissing|intros E; rewrite E, Hfind in Hmissing; discriminate]].
    rewrite find_row_update_same, Hfind. simpl.
    rewrite (sum_scores_update fromID _ _ r Hnd Hfind).
    rewrite Hscore, sub_in_range by exact Hr. simpl. split; [reflexivity|lia].
  - rewrite (update_where_absent fromID _ _ Hmissing).
    rewrite find_row_update_same, Hfind. simpl.
    rewrite (sum_scores_update toID _ _ r Hnd Hfind).
    rewrite Hscore, add_in_range by exact Hr. simpl. split; [reflexivity|lia].
Qed.

Lemma transfer_with_missing_party_witness :
  let db' := transferScore main_db 2 7 20 in
  transferred db' 20 2 7 /\
  score_of db' 2 = Some (Integer (150 - 20)) /\
  total_score db' = total_score main_db - 20.
Proof.
  apply (transfer_with_missing_party main_db 2 7 20 150).
  - reflexivity.
  - unfold unique_ids. simpl. repeat constructor; simpl; intuition discriminate.
  - reflexivity.
  - unfold exists_id. simpl. intros H. apply H. reflexivity.
  - reflexivity.
Defined.

(** ** The stores the program can reach *)

Section Reachable.

Lemma email_free_not_in email t :
  email_taken email t = false -> ~ In email (map r_email t).
Proof.
  unfold email_taken. intros Hfree Hin. apply in_map_iff in Hin.
  destruct Hin as (r & He & Hin).
  assert (existsb (fun r => String.eqb (r_email r) email) t = true).
  { apply existsb_exists. exists r. split; [exact Hin|]. apply String.eqb_eq, He. }
  congruence.
Qed.

Lemma ids_in_sequence_map t s :
  Forall (fun r => 1 <= r_id r <= s) t <-> Forall (fun i => 1 <= i <= s) (map r_id t).
Proof.
  symmetry. apply Forall_map.
Qed.

(** The two ways [insertUser] can leave the store. *)
Lemma insertUser_store db name email score :
  let db' := snd (insertUser db name email score) in
  txn db' = txn db /\
  ((users db' = users db /\ seq db' = seq db) \/
   (email_taken email (users db) = false /\
    seq db' = Z.max (seq db) (max_rowid (users db)) + 1 /\
    users db' = (users db ++ [mkRow (seq db') name email (Integer score)])%list)).
Proof.
  unfold insertUser, db_Exec_insert, sql_insert.
  pose proof (engine_call_users db) as Hu. pose proof (engine_call_seq db) as Hs.
  pose proof (engine_call_txn db) as Ht. revert Hu Hs Ht.
  destruct (engine_call db) as [[f|] db1]; simpl; intros Hu Hs Ht.
  - split; [exact Ht|]. left. split; assumption.
  - rewrite Hu, Hs.
    destruct (max_int64 <=? Z.max (seq db) (max_rowid (users db))); simpl;
      [split; [exact Ht|]; left; split; assumption|].
    destruct (email_taken email (users db)) eqn:E; simpl;
      (split; [exact Ht|]); [left; split; assumption|].
    right. rewrite ?Hu. conjuncts; reflexivity.
Qed.

Lemma updateScore_store db id newScore :
  let db' := updateScore db id newScore in
  map r_id (users db') = map r_id (users db) /\
  map r_email (users db') = map r_email (users db) /\
  seq db' = seq db /\ txn db' = txn db.
Proof.
  unfold updateScore, db_Exec_update.
  pose proof (engine_call_users db) as Hu. pose proof (engine_call_seq db) as Hs.
  pose proof (engine_call_txn db) as Ht. revert Hu Hs Ht.
  destruct (engine_call db) as [[e|] db1]; simpl; intros Hu Hs Ht; rewrite Hu.
  - conjuncts; try assumption; reflexivity.
  - rewrite update_where_ids, update_where_emails.
    conjuncts; try assumption; reflexivity.
Qed.

Lemma getUserByID_store db id :
  let db' := snd (getUserByID db id) in
  users db' = users db /\ seq db' = seq db /\ txn db' = txn db.
Proof.
  pose proof (engine_call_users db) as Hu. pose proof (engine_call_seq db) as Hs.
  pose proof (engine_call_txn db) as Ht.
  unfold getUserByID, db_QueryRow_Scan. revert Hu Hs Ht.
  destruct (engine_call db) as [[f|] db1]; simpl; intros Hu Hs Ht;
    [conjuncts; assumption|].
  destruct (row_Scan (find_row id (users db1)) zero_User) as [user err].
  destruct (error_eqb_ErrNoRows err); simpl; conjuncts; assumption.
Qed.

Lemma getAllUsers_store db :
  let db' := snd (getAllUsers db) in
  users db' = users db /\ seq db' = seq db /\ txn db' = txn db.
Proof.
  pose proof (engine_call_users db) as Hu. pose proof (engine_call_seq db) as Hs.
  pose proof (engine_call_txn db) as Ht.
  unfold getAllUsers, db_Query. revert Hu Hs Ht.
  destruct (engine_call db) as [[f|] db1]; simpl; intros Hu Hs Ht;
    [conjuncts; assumption|].
  destruct (rows_loop_store (order_by_score_desc (users db1)) [] db1)
    as (Hu' & Hs' & Ht' & _).
  conjuncts; congruence.
Qed.

Lemma transferScore_store db fromID toID amount :
  let db' := transferScore db fromID toID amount in
  map r_id (users db') = map r_id (users db) /\
  map r_email (users db') = map r_email (users db) /\
  seq db' = seq db /\
  (tx_closed db -> tx_closed db').
Proof.
  destruct db as [u s x fs l].
  unfold transferScore, transfer_body, db_Begin, tx_Exec_update, tx_Commit,
    tx_Rollback, engine_call, tx_closed; simpl.
  assert (Hids : map r_id
            (update_where toID (fun score => add score amount)
               (update_where fromID (fun score => sub score amount) u)) = map r_id u)
    by (rewrite !update_where_ids; reflexivity).
  assert (Hemails : map r_email
            (update_where toID (fun score => add score amount)
               (update_where fromID (fun score => sub score amount) u)) = map r_email u)
    by (rewrite !update_where_emails; reflexivity).
  next_fault fs; [| |next_fault fs; [| |next_fault fs; [| |next_fault fs]]];
    conjuncts; try assumption; try reflexivity;
    try (intros _ snapshot; discriminate); try (intros H; exact H).
Qed.

(** X14. Every store that the functions of the program make out of
    the empty table, in any order, with any arguments and whatever
    the engine does in between, keeps the schema's promises: no two
    rows share an id, no two rows share an email, every id is at
    least 1 and at most the AUTOINCREMENT sequence, every score cell
    is a 64-bit integer or a REAL outside that range, and no
    transaction is open. *)
Theorem reachable_store_ok db : reachable db -> store_ok db.
Proof.
  induction 1 as [fs | db fs _ IH | db name email score _ IH Hscore
                 | db id v _ IH Hv | db id _ IH | db _ IH
                 | db fromID toID amount _ IH].
  - constructor; unfold unique_ids, unique_emails, ids_in_sequence, valid_scores,
      tx_closed; simpl; try constructor. discriminate.
  - destruct IH as [H1 H2 H3 H4 H5]. constructor; assumption.
  - destruct IH as [H1 H2 H3 H4 H5].
    destruct (insertUser_invariants db H1 H4 name email score Hscore) as [Hi Hc].
    destruct (insertUser_store db name email score) as [Ht [[Hu Hs]|(Hfree & Hs & Hu)]];
      constructor; try assumption.
    + unfold unique_emails. rewrite Hu. exact H2.
    + unfold ids_in_sequence. rewrite Hu, Hs. exact H3.
    + unfold tx_closed. rewrite Ht. exact H5.
    + unfold unique_emails. rewrite Hu, map_app. simpl.
      apply (Permutation_NoDup (Permutation_cons_append _ _)).
      constructor; [apply email_free_not_in, Hfree|exact H2].
    + unfold ids_in_sequence in *. rewrite Hu. apply Forall_app. split.
      * eapply Forall_impl; [|exact H3]. simpl. intros r Hr. lia.
      * constructor; [|constructor]. simpl.
        pose proof (max_rowid_nonneg (users db)). lia.
    + unfold tx_closed. rewrite Ht. exact H5.
  - destruct IH as [H1 H2 H3 H4 H5].
    destruct (updateScore_invariants db H1 H4 id v Hv) as [Hi Hc].
    destruct (updateScore_store db id v) as (Hids & Hemails & Hs & Ht).
    constructor; try assumption.
    + unfold unique_emails. rewrite Hemails. exact H2.
    + unfold ids_in_sequence in *. rewrite ids_in_sequence_map in *.
      rewrite Hids, Hs. exact H3.
    + unfold tx_closed. rewrite Ht. exact H5.
  - destruct IH as [H1 H2 H3 H4 H5].
    destruct (getUserByID_store db id) as (Hu & Hs & Ht).
    constructor; unfold unique_ids, unique_emails, ids_in_sequence, valid_scores,
      tx_closed in *; rewrite ?Hu, ?Hs, ?Ht; assumption.
  - destruct IH as [H1 H2 H3 H4 H5].
    destruct (getAllUsers_store db) as (Hu & Hs & Ht).
    constructor; unfold unique_ids, unique_emails, ids_in_sequence, valid_scores,
      tx_closed in *; rewrite ?Hu, ?Hs, ?Ht; assumption.
  - destruct IH as [H1 H2 H3 H4 H5].
    destruct (transferScore_invariants db H1 H4 fromID toID amount) as [Hi Hc].
    destruct (transferScore_store db fromID toID amount) as (Hids & Hemails & Hs & Ht).
    constructor; try assumption.
    + unfold unique_emails. rewrite Hemails. exact H2.
    + unfold ids_in_sequence in *. rewrite ids_in_sequence_map in *.
      rewrite Hids, Hs. exact H3.
    + apply Ht, H5.
Qed.

End Reachable.

Lemma reachable_store_ok_witness :
  store_ok (transferScore
              (snd (insertUser (mkDB [] 0 Idle [None; Some Busy] [])
                      "Alice" "alice@example.com" 100)) 1 1 5).
Proof.
  apply reachable_store_ok.
  apply reach_transferScore. apply reach_insertUser; [|reflexivity].
  apply reach_initDB.
Defined.

(** ** [initDB] *)


(** ** The calls of [main] *)

Lemma insertUser_taken db name email score :
  email_taken email (users db) = true ->
  fst (fst (insertUser db name email score)) = 0 /\
  users (snd (insertUser db name email score)) = users db /\
  seq (snd (insertUser db name email score)) = seq db.
Proof.
  intros Htaken. unfold insertUser, db_Exec_insert, sql_insert.
  pose proof (engine_call_users db) as Hu. pose proof (engine_call_seq db) as Hs.
  revert Hu Hs. destruct (engine_call db) as [[f|] db1]; simpl; intros Hu Hs.
  - conjuncts; try assumption; reflexivity.
  - rewrite Hu, Hs, Htaken.
    destruct (max_int64 <=? Z.max (seq db) (max_rowid (users db))); simpl;
      conjuncts; try assumption; reflexivity.
Qed.

Lemma updateScore_absent db id newScore :
  find_row id (users db) = None ->
  users (updateScore db id newScore) = users db /\
  seq (updateScore db id newScore) = seq db.
Proof.
  intros Hnone. unfold updateScore, db_Exec_update.
  pose proof (engine_call_users db) as Hu. pose proof (engine_call_seq db) as Hs.
  revert Hu Hs. destruct (engine_call db) as [[f|] db1]; simpl; intros Hu Hs.
  - split; assumption.
  - rewrite Hu, (update_where_absent _ _ _ Hnone). split; [reflexivity|assumption].
Qed.

Lemma transferScore_absent db fromID toID amount :
  find_row fromID (users db) = None -> find_row toID (users db) = None ->
  users (transferScore db fromID toID amount) = users db /\
  seq (transferScore db fromID toID amount) = seq db.
Proof.
  intros Hf Ht.
  destruct (transferScore_store db fromID toID amount) as (_ & _ & Hs & _).
  split; [|exact Hs].
  destruct (transferScore_exit db fromID toID amount)
    as [err _ Hu _ | err _ Hu _ | err _ Hu _ | err _ Hu _ | _ Hu _];
    try exact Hu.
  rewrite Hu, (update_where_absent fromID _ _ Hf). apply update_where_absent, Ht.
Qed.

(** X16. [main] passes on the ids that [insertUser] returns without
    looking at its error.  On a store that already has the two
    emails, as it does when the program is started a second time,
    both inserts fail and return the id 0, which no row has; so
    [updateScore] and [transferScore] are called on the id 0 and do
    nothing: whatever the engine does, the rows and the id sequence
    after the calls of [main] are what they were. *)
Theorem main_calls_second_run db :
  email_taken "alice@example.com" (users db) = true ->
  email_taken "bob@example.com" (users db) = true ->
  ~ exists_id db 0 ->
  users (main_calls db) = users db /\ seq (main_calls db) = seq db.
Proof.
  intros Ha Hb Hzero. apply not_exists_id in Hzero. unfold main_calls.
  destruct (insertUser_taken db "Alice" "alice@example.com" 100 Ha) as (Hid1 & Hu1 & Hs1).
  destruct (insertUser db "Alice" "alice@example.com" 100) as [[idAlice e1] db1].
  simpl in Hid1, Hu1, Hs1. subst idAlice.
  rewrite <- Hu1 in Hb.
  destruct (insertUser_taken db1 "Bob" "bob@example.com" 150 Hb) as (Hid2 & Hu2 & Hs2).
  destruct (insertUser db1 "Bob" "bob@example.com" 150) as [[idBob e2] db2].
  simpl in Hid2, Hu2, Hs2. subst idBob.
  assert (Hz2 : find_row 0 (users db2) = None) by (rewrite Hu2, Hu1; exact Hzero).
  destruct (updateScore_absent db2 0 120 Hz2) as (Hu3 & Hs3).
  destruct (getUserByID_store (updateScore db2 0 120) 0) as (Hu4 & Hs4 & _).
  destruct (getUserByID (updateScore db2 0 120) 0) as [res4 db4]. simpl in Hu4, Hs4.
  destruct (getAllUsers_store db4) as (Hu5 & Hs5 & _).
  destruct (getAllUsers db4) as [res5 db5]. simpl in Hu5, Hs5.
  assert (Hz5 : find_row 0 (users db5) = None) by (rewrite Hu5, Hu4, Hu3; exact Hz2).
  destruct (transferScore_absent db5 0 0 20 Hz5 Hz5) as (Hu6 & Hs6).
  split; congruence.
Qed.

Lemma main_calls_second_run_witness :
  users (main_calls (main_calls empty_db)) = users (main_calls empty_db) /\
  seq (main_calls (main_calls empty_db)) = seq (main_calls empty_db).
Proof.
  apply (main_calls_second_run (main_calls empty_db)).
  - reflexivity.
  - reflexivity.
  - unfold exists_id. simpl. intros H. apply H. reflexivity.
Defined.

(** The first run on a new file ends as the scenario says. *)
Example main_calls_first_run :
  users (main_calls empty_db) =
    [mkRow 1 "Alice" "alice@example.com" (Integer 140);
     mkRow 2 "Bob" "bob@example.com" (Integer 130)].
Proof. reflexivity. Qed.


(** ** [queryWithTimeout] *)


(** The deadline's error is told apart from the failure of the engine
    that a late deadline only labels. *)
Example queryWithTimeout_engine_failure :
  snd (fst (queryWithTimeout None None (with_faults [Some DBClosed] main_db))) =
    Some (QErr (ErrFault DBClosed)) /\
  snd (fst (queryWithTimeout None (Some DeadlineExceeded)
              (with_faults [Some DBClosed] main_db))) =
    Some (QWrap timeout_msg (QErr (ErrFault DBClosed))).
Proof. split; reflexivity. Qed.
